(** * osn-system-utils: localhost port and process utilities

    A shallow embedding of [osn_system_utils/api/network.py] and
    [osn_system_utils/api/process.py].  The operating system (psutil, the
    socket layer) is an explicit parameter of the embedded functions: every
    statement below holds for all behaviours of that layer.  The helpers of
    [osn_system_utils/api/_functions.py], which [process.py] imports, are
    described by the specification only and are modelled from it. *)

From Stdlib Require Import ZArith String Ascii List Lia.
From stdpp Require Import base decidable option list list_numbers sorting
  gmap sets strings pretty.

Local Open Scope Z_scope.
Local Open Scope string_scope.
Local Open Scope list_scope.

Local Set Warnings "-register-all".

(** ** Python values and exceptions *)

(** The values psutil hands out for a process attribute: [None], integers,
    strings, sequences and nested mappings (a [dict] keeps insertion order,
    so it is an association list; a named tuple such as [memory_info] is
    the mapping from its field names to their values). *)
Inductive Value : Type :=
  | VNone
  | VInt (z : Z)
  | VStr (s : string)
  | VList (l : list Value)
  | VDict (d : list (string * Value)).

(** The exceptions the two modules raise or catch. *)
Inductive exn : Type :=
  | NoSuchProcess
  | AccessDenied
  | KeyError (key : string)
  | AttributeError (name : string)
  | ValueError (msg : string)
  | RuntimeError (msg : string).

(** The result of a call: a returned value or a raised exception. *)
Inductive outcome (A : Type) : Type :=
  | Ret (a : A)
  | Raise (e : exn).
Arguments Ret {A} a.
Arguments Raise {A} e.

(** [except (psutil.NoSuchProcess, psutil.AccessDenied)] *)
Definition caught (e : exn) : bool :=
  match e with
  | NoSuchProcess | AccessDenied => true
  | _ => false
  end.

(** ** network.py *)
Module Network.

Record addr := { ip : string; port : Z }.

(** A psutil connection object; [laddr = None] stands for an object without
    a [laddr] attribute, [pid = None] for an unknown owner. *)
Record sconn := { laddr : option addr; pid : option Z }.

Definition _LOCALHOST_IPS : gset string :=
  {[ "127.0.0.1"; "::1"; "0.0.0.0"; "::" ]}.

Definition _PORT_RANGE_START : Z := 1024.
Definition _PORT_RANGE_END : Z := 49151.

(** [range(start, stop)] *)
Definition py_range (start stop : Z) : list Z := seqZ start (stop - start).

Definition _ALL_PORTS_RANGE : gset Z :=
  list_to_set (py_range _PORT_RANGE_START _PORT_RANGE_END).

(** [hasattr(conn, 'laddr') and conn.laddr.ip in _LOCALHOST_IPS] *)
Definition _is_localhost (conn : sconn) : bool :=
  match laddr conn with
  | Some a => bool_decide (ip a ∈ _LOCALHOST_IPS)
  | None => false
  end.

(** [sorted(list(s))] for a set of integers. *)
Definition sorted (s : gset Z) : list Z := merge_sort Z.le (elements s).

(** [min(l)] for a non-empty list of integers; [None] on the empty list,
    where Python raises. *)
Definition py_min (l : list Z) : option Z :=
  match l with
  | [] => None
  | x :: t => Some (fold_left Z.min t x)
  end.

(** The argument [ports_to_check]: an [int], a sequence, or something else. *)
Inductive ports_arg : Type :=
  | PortInt (p : Z)
  | PortSeq (l : list Value)
  | PortOther.

(** [candidate a p]: [p] is one of the ports the caller asked to check. *)
Inductive candidate : option ports_arg → Z → Prop :=
  | candidate_int p : candidate (Some (PortInt p)) p
  | candidate_seq l p : VInt p ∈ l → candidate (Some (PortSeq l)) p.

(** The socket layer at the time of a call.  [try_bind p] tells whether
    [s.bind(("127.0.0.1", p))] succeeds ([false]: it raises [OSError]); the
    socket is released on leaving the [with] block, so probing leaves the
    socket table as it is.  [net_connections] is the list returned by
    [psutil.net_connections(kind="inet")]. *)
Class Sockets := {
  try_bind : Z → bool;
  net_connections : list sconn
}.

Section Snapshot.

Context {os : Sockets}.

Definition _is_port_free (port : Z) : bool := try_bind port.

(** The comprehension of lines 138-143: the integers of the sequence that
    are free, in the order of the sequence. *)
Fixpoint available_candidates (ports_to_check : list Value) : list Z :=
  match ports_to_check with
  | [] => []
  | VInt port :: rest =>
      if _is_port_free port then port :: available_candidates rest
      else available_candidates rest
  | _ :: rest => available_candidates rest
  end.

(** Lines 132-146: the port returned from the caller's candidates, if any. *)
Definition from_candidates (ports_to_check : option ports_arg) : option Z :=
  match ports_to_check with
  | None => None
  | Some (PortInt p) => if _is_port_free p then Some p else None
  | Some (PortSeq l) =>
      match available_candidates l with
      | [] => None
      | c :: cs => py_min (c :: cs)
      end
  | Some PortOther => None
  end.

Definition no_free_ports_message : string :=
  "No free ports found in range " +:+ pretty _PORT_RANGE_START +:+ "-"
    +:+ pretty _PORT_RANGE_END.

Definition get_localhost_minimum_free_port
    (ports_to_check : option ports_arg) : outcome Z :=
  match from_candidates ports_to_check with
  | Some p => Ret p
  | None =>
      match List.find _is_port_free (elements _ALL_PORTS_RANGE) with
      | Some p => Ret p
      | None => Raise (RuntimeError no_free_ports_message)
      end
  end.

(** The set comprehension of lines 163-167. *)
Definition busy_port_set : gset Z :=
  list_to_set
    (omap (λ c, if _is_localhost c then port <$> laddr c else None)
          net_connections).

Definition get_localhost_busy_ports : list Z := sorted busy_port_set.

Definition get_localhost_free_ports : list Z :=
  let busy_ports : gset Z := list_to_set get_localhost_busy_ports in
  let free_ports := _ALL_PORTS_RANGE ∖ busy_ports in
  sorted free_ports.

End Snapshot.

(** [bool(c.pid)]: the owner is known and is not process 0. *)
Definition has_pid (c : sconn) : bool :=
  match pid c with
  | Some p => negb (Z.eqb p 0)
  | None => false
  end.

(** [isinstance(port, int)] *)
Definition is_int (v : Value) : bool :=
  match v with
  | VInt _ => true
  | _ => false
  end.

(** [f"{conn.laddr.ip}:{conn.laddr.port}"] *)
Definition address_string (a : addr) : string :=
  ip a +:+ ":" +:+ pretty (port a).

Section PidMaps.

Context {os : Sockets}.

(** The list comprehension of lines 53-58 and of lines 80-85. *)
Definition owned_localhost_connections : list sconn :=
  List.filter (λ c, has_pid c && _is_localhost c) net_connections.

(** One turn of the loops of lines 60-65 and 87-92, which differ in the
    item they store only.  [result[conn.pid]] on a [defaultdict(list)]
    creates the entry when it is missing, and [p_list.append] changes the
    list the entry holds.  The connections of the comprehension have a pid
    and a local address. *)
Definition record_item {A : Type} `{EqDecision A} (item : addr → A)
    (result : gmap Z (list A)) (conn : sconn) : gmap Z (list A) :=
  match pid conn, laddr conn with
  | Some p, Some a =>
      let p_list := default [] (result !! p) in
      if bool_decide (item a ∈ p_list) then <[p := p_list]> result
      else <[p := p_list ++ [item a]]> result
  | _, _ => result
  end.

Definition get_localhost_pids_with_ports : gmap Z (list Z) :=
  fold_left (record_item port) owned_localhost_connections ∅.

Definition get_localhost_pids_with_addresses : gmap Z (list string) :=
  fold_left (record_item address_string) owned_localhost_connections ∅.

End PidMaps.

(** *** Notions used to state further properties *)

(** Appending the items of [xs] to [l] one by one, each unless it is there
    already. *)
Definition extend {A : Type} `{EqDecision A} (l xs : list A) : list A :=
  fold_left (λ l x, if bool_decide (x ∈ l) then l else l ++ [x]) xs l.

(** The items stored for the connections of process [p], in the order of
    the connections. *)
Definition items_of {A : Type} (item : addr → A) (p : Z) (conns : list sconn)
    : list A :=
  omap (λ c, match pid c, laddr c with
             | Some q, Some a => if bool_decide (q = p) then Some (item a) else None
             | _, _ => None
             end) conns.

End Network.

(** ** Regular expressions

    [re.Pattern] objects, as far as the filters use them: a pattern is a
    regular expression and [pattern.search(s)] asks whether some substring of
    [s] belongs to its language.  Matching is by derivatives. *)
Module Re.

Inductive Pattern : Type :=
  | Void
  | Eps
  | Chr (c : ascii)
  | Dot
  | Cat (r1 r2 : Pattern)
  | Alt (r1 r2 : Pattern)
  | Star (r : Pattern).

Definition newline : ascii := ascii_of_nat 10.

Fixpoint nullable (r : Pattern) : bool :=
  match r with
  | Void | Chr _ | Dot => false
  | Eps | Star _ => true
  | Cat r1 r2 => nullable r1 && nullable r2
  | Alt r1 r2 => nullable r1 || nullable r2
  end.

Fixpoint deriv (a : ascii) (r : Pattern) : Pattern :=
  match r with
  | Void | Eps => Void
  | Chr c => if Ascii.eqb a c then Eps else Void
  | Dot => if Ascii.eqb a newline then Void else Eps
  | Cat r1 r2 =>
      if nullable r1 then Alt (Cat (deriv a r1) r2) (deriv a r2)
      else Cat (deriv a r1) r2
  | Alt r1 r2 => Alt (deriv a r1) (deriv a r2)
  | Star r1 => Cat (deriv a r1) (Star r1)
  end.

(** [pattern.match(s)]: some prefix of [s] is in the language. *)
Fixpoint match_ (r : Pattern) (s : string) : bool :=
  nullable r ||
  match s with
  | EmptyString => false
  | String a t => match_ (deriv a r) t
  end.

(** [pattern.search(s)]: a match starting at some position of [s]. *)
Fixpoint search (r : Pattern) (s : string) : bool :=
  match_ r s ||
  match s with
  | EmptyString => false
  | String _ t => search r t
  end.

(** [re.compile(w)] for a [w] without metacharacters. *)
Fixpoint literal (w : string) : Pattern :=
  match w with
  | EmptyString => Eps
  | String c t => Cat (Chr c) (literal t)
  end.

(** The language of a pattern. *)
Inductive lang : Pattern → string → Prop :=
  | lang_eps : lang Eps ""
  | lang_chr c : lang (Chr c) (String c "")
  | lang_dot c : c ≠ newline → lang Dot (String c "")
  | lang_cat r1 r2 s1 s2 :
      lang r1 s1 → lang r2 s2 → lang (Cat r1 r2) (s1 +:+ s2)
  | lang_alt_l r1 r2 s : lang r1 s → lang (Alt r1 r2) s
  | lang_alt_r r1 r2 s : lang r2 s → lang (Alt r1 r2) s
  | lang_star_nil r : lang (Star r) ""
  | lang_star_cons r s1 s2 :
      lang r s1 → lang (Star r) s2 → lang (Star r) (s1 +:+ s2).

End Re.

(** ** process.py *)
Module Process.

(** *** Builtins the module relies on *)

(** [d.get(k)] on a [dict] given by its items. *)
Fixpoint dict_get {V : Type} (k : string) (d : list (string * V)) : option V :=
  match d with
  | [] => None
  | (k', v) :: rest => if String.eqb k k' then Some v else dict_get k rest
  end.

(** [d[k] = v]: an existing key keeps its place, a new key goes last. *)
Fixpoint dict_set {V : Type} (k : string) (v : V) (d : list (string * V))
    : list (string * V) :=
  match d with
  | [] => [(k, v)]
  | (k', v') :: rest =>
      if String.eqb k k' then (k, v) :: rest else (k', v') :: dict_set k v rest
  end.

Definition keys {V : Type} (d : list (string * V)) : list string := fst <$> d.

(** [s.split(sep)] as its first piece and the remaining pieces: the result
    of [split] is never empty. *)
Fixpoint split_on (sep : ascii) (s : string) : string * list string :=
  match s with
  | EmptyString => (EmptyString, [])
  | String c t =>
      let '(h, r) := split_on sep t in
      if Ascii.eqb c sep then (EmptyString, h :: r) else (String c h, r)
  end.

Definition split (sep : ascii) (s : string) : list string :=
  let '(h, r) := split_on sep s in h :: r.

(** [key.split(".")[0]] *)
Definition first_segment (key : string) : string := (split_on "." key).1.

(** [str.lower], on ASCII letters. *)
Definition lower_ascii (c : ascii) : ascii :=
  let n := nat_of_ascii c in
  if ((65 <=? n) && (n <=? 90))%nat then ascii_of_nat (n + 32) else c.

Fixpoint lower (s : string) : string :=
  match s with
  | EmptyString => EmptyString
  | String c t => String (lower_ascii c) (lower t)
  end.

(** [bool(v)] *)
Definition py_truthy (v : Value) : bool :=
  match v with
  | VNone | VInt 0 | VStr EmptyString | VList [] | VDict [] => false
  | _ => true
  end.

(** [a == b] *)
Fixpoint py_eq (a b : Value) : bool :=
  match a, b with
  | VNone, VNone => true
  | VInt x, VInt y => Z.eqb x y
  | VStr s, VStr t => String.eqb s t
  | VList l, VList m =>
      (fix go (l m : list Value) : bool :=
         match l, m with
         | [], [] => true
         | x :: l', y :: m' => py_eq x y && go l' m'
         | _, _ => false
         end) l m
  | VDict d, VDict e =>
      (fix go (d e : list (string * Value)) : bool :=
         match d, e with
         | [], [] => true
         | (k, x) :: d', (k', y) :: e' => String.eqb k k' && py_eq x y && go d' e'
         | _, _ => false
         end) d e
  | _, _ => false
  end.

(** [a < b]; [None] where Python raises [TypeError] because the two values
    are not ordered against each other. *)
Fixpoint py_lt (a b : Value) : option bool :=
  match a, b with
  | VInt x, VInt y => Some (Z.ltb x y)
  | VStr s, VStr t => Some (String.ltb s t)
  | VList l, VList m =>
      (fix go (l m : list Value) : option bool :=
         match l, m with
         | [], [] => Some false
         | [], _ :: _ => Some true
         | _ :: _, [] => Some false
         | x :: l', y :: m' => if py_eq x y then go l' m' else py_lt x y
         end) l m
  | _, _ => None
  end.

(** [repr] of a sequence or of a mapping is left to the Python runtime. *)
Class Builtins := { py_repr : Value → string }.

(** [str(v)] *)
Definition py_str `{Builtins} (v : Value) : string :=
  match v with
  | VNone => "None"
  | VInt z => pretty z
  | VStr s => s
  | VList _ | VDict _ => py_repr v
  end.

(** *** The helpers of [osn_system_utils.api._functions] *)

(** Modelled from the spec: the result of [get_nested_val], a sum of the
    value found and of the Absent marker (sections 4.1 and 9). *)
Inductive Resolved : Type :=
  | Found (v : Value)
  | Absent.

(** Modelled from the spec: one indexing step of [get_nested_val]; only a
    mapping can be indexed, and only at a key it has (section 4.1). *)
Definition index (cur : Value) (segment : string) : Resolved :=
  match cur with
  | VDict d =>
      match dict_get segment d with
      | Some v => Found v
      | None => Absent
      end
  | _ => Absent
  end.

(** Modelled from the spec: the walk of [get_nested_val] along the segments
    of a path; a path without segments left is resolved (section 4.1). *)
Fixpoint resolve (cur : Value) (segments : list string) : Resolved :=
  match segments with
  | [] => Found cur
  | segment :: rest =>
      match index cur segment with
      | Found v => resolve v rest
      | Absent => Absent
      end
  end.

(** Modelled from the spec: [get_nested_val] of the module
    [osn_system_utils.api._functions], which is not part of the sources at
    hand.  Section 4.1: the value found by repeatedly indexing into nested
    mappings by each segment of the dotted path; a missing segment, or an
    intermediate value that cannot be indexed, gives the Absent result and no
    exception. *)
Definition get_nested_val (value : Value) (path : string) : Resolved :=
  resolve value (split "." path).

Section Checks.

Context {builtins : Builtins}.

(** Modelled from the spec: [check_regex] of [_functions].  Section 4.2: the
    value, coerced to its string form, is searched for the pattern; an
    Absent value does not match. *)
Definition check_regex (info : list (string * Value)) (attribute : string)
    (pattern : Re.Pattern) : bool :=
  match get_nested_val (VDict info) attribute with
  | Found v => Re.search pattern (py_str v)
  | Absent => false
  end.

(** Modelled from the spec: [check_equal] of [_functions].  Section 4.2:
    structural equality with the target; fails closed on Absent. *)
Definition check_equal (info : list (string * Value)) (attribute : string)
    (target : Value) : bool :=
  match get_nested_val (VDict info) attribute with
  | Found v => py_eq v target
  | Absent => false
  end.

(** Modelled from the spec: [check_not_equal] of [_functions].  Section 4.2:
    structural inequality; an Absent value passes only when the excluded
    target is not itself the absent marker. *)
Definition check_not_equal (info : list (string * Value)) (attribute : string)
    (target : Value) : bool :=
  match get_nested_val (VDict info) attribute with
  | Found v => negb (py_eq v target)
  | Absent => negb (py_eq target VNone)
  end.

(** Modelled from the spec: [check_above] of [_functions].  Section 4.2:
    strict [value > limit]; false when the value is Absent or not ordered
    against the limit. *)
Definition check_above (info : list (string * Value)) (attribute : string)
    (limit : Value) : bool :=
  match get_nested_val (VDict info) attribute with
  | Found v => default false (py_lt limit v)
  | Absent => false
  end.

(** Modelled from the spec: [check_under] of [_functions].  Section 4.2:
    strict [value < limit]; false when the value is Absent or not ordered
    against the limit. *)
Definition check_under (info : list (string * Value)) (attribute : string)
    (limit : Value) : bool :=
  match get_nested_val (VDict info) attribute with
  | Found v => default false (py_lt v limit)
  | Absent => false
  end.

(** Modelled from the spec: [check_between] of [_functions].  Section 4.2:
    [min_ < value < max_], both ends exclusive; false when the value is
    Absent or not ordered against a bound. *)
Definition check_between (info : list (string * Value)) (attribute : string)
    (min_ max_ : Value) : bool :=
  match get_nested_val (VDict info) attribute with
  | Found v => default false (py_lt min_ v) && default false (py_lt v max_)
  | Absent => false
  end.

(** A [functools.partial] object over one of the six checks: the function
    and its keyword arguments. *)
Inductive validator : Type :=
  | partial_regex (attribute : string) (pattern : Re.Pattern)
  | partial_equal (attribute : string) (target : Value)
  | partial_not_equal (attribute : string) (target : Value)
  | partial_above (attribute : string) (limit : Value)
  | partial_under (attribute : string) (limit : Value)
  | partial_between (attribute : string) (min_ max_ : Value).

(** [validate(info)] *)
Definition call (validate : validator) (info : list (string * Value)) : bool :=
  match validate with
  | partial_regex attribute pattern => check_regex info attribute pattern
  | partial_equal attribute target => check_equal info attribute target
  | partial_not_equal attribute target => check_not_equal info attribute target
  | partial_above attribute limit => check_above info attribute limit
  | partial_under attribute limit => check_under info attribute limit
  | partial_between attribute min_ max_ => check_between info attribute min_ max_
  end.

End Checks.

(** *** The process layer *)

(** A call that may change the state of the operating system and either
    returns or raises. *)
Definition M (World A : Type) : Type := World → outcome A * World.

(** A process object yielded by [psutil.process_iter(attrs)]: the handle and
    the result of reading its [info], which is the attribute snapshot or the
    exception raised while getting at it. *)
Record Proc (Handle : Type) := {
  handle : Handle;
  info : outcome (list (string * Value))
}.
Arguments handle {Handle} _.
Arguments info {Handle} _.

(** What the module asks of psutil.  Looking a process up, listing its
    descendants and enumerating the process table read the state of the
    system; sending a signal may change it. *)
Class Psutil (Handle World : Type) := {
  (** [psutil.Process(pid)] *)
  psutil_Process : Z → World → outcome Handle;
  (** [proc.children(recursive=True)] *)
  proc_children : Handle → World → outcome (list Handle);
  (** [p.terminate()] *)
  proc_terminate : Handle → M World unit;
  (** [p.kill()] *)
  proc_kill : Handle → M World unit;
  (** [psutil.process_iter(attrs)] *)
  psutil_process_iter : gset string → World → outcome (list (Proc Handle))
}.

Section Monad.

Context {World : Type}.

Definition ret {A : Type} (a : A) : M World A := λ w, (Ret a, w).

Definition raise {A : Type} (e : exn) : M World A := λ w, (Raise e, w).

Definition bind {A B : Type} (m : M World A) (k : A → M World B) : M World B :=
  λ w, match m w with
       | (Ret a, w') => k a w'
       | (Raise e, w') => (Raise e, w')
       end.

(** A call that only reads the state. *)
Definition read {A : Type} (f : World → outcome A) : M World A := λ w, (f w, w).

Definition of_outcome {A : Type} (o : outcome A) : M World A := λ w, (o, w).

(** [try: body / except (those that [handles] accepts): handler] *)
Definition try_except {A : Type} (body : M World A) (handles : exn → bool)
    (handler : M World A) : M World A :=
  λ w, match body w with
       | (Ret a, w') => (Ret a, w')
       | (Raise e, w') => if handles e then handler w' else (Raise e, w')
       end.

(** [for x in l: body(x)] *)
Fixpoint for_each {A : Type} (l : list A) (body : A → M World unit)
    : M World unit :=
  match l with
  | [] => ret tt
  | x :: rest => bind (body x) (λ _, for_each rest body)
  end.

(** A [for] loop that updates a local variable [acc]. *)
Fixpoint for_acc {A S : Type} (l : list A) (acc : S) (body : S → A → M World S)
    : M World S :=
  match l with
  | [] => ret acc
  | x :: rest => bind (body acc x) (λ acc', for_acc rest acc' body)
  end.

End Monad.

Declare Scope monad_scope.
Delimit Scope monad_scope with monad.
Notation "x <- m ;; k" := (bind m (λ x, k))
  (at level 100, m at next level, right associativity) : monad_scope.
Notation "m ;; k" := (bind m (λ _, k))
  (at level 100, right associativity) : monad_scope.
Local Open Scope monad_scope.

(** A row of the table: the requested columns with what their paths
    resolved to. *)
Definition Row : Type := list (string * Resolved).

(** [pandas.DataFrame(data)], as the list of its records. *)
Record DataFrame := { records : list Row }.

(** [d[k]] on a snapshot. *)
Definition getitem {World : Type} (d : list (string * Value)) (k : string)
    : M World Value :=
  match dict_get k d with
  | Some v => ret v
  | None => raise (KeyError k)
  end.

(** [v.lower()] *)
Definition str_lower {World : Type} (v : Value) : M World string :=
  match v with
  | VStr s => ret (lower s)
  | _ => raise (AttributeError "lower")
  end.

(** The items of a filter argument that passes [if f_dict:]. *)
Definition items {V : Type} (f_dict : option (list (string * V)))
    : list (string * V) :=
  default [] f_dict.

Definition default_columns : list (string * string) :=
  [("PID", "pid"); ("Name", "name"); ("Status", "status")].

Section Functions.

Context {Handle World : Type} {psutil : Psutil Handle World}.
Context {builtins : Builtins}.

Definition signal (force : bool) (p : Handle) : M World unit :=
  if force then proc_kill p else proc_terminate p.

Definition _kill_proc_obj (proc : Handle) (force tree : bool) : M World bool :=
  try_except
    (procs_to_kill <-
       (if tree then
          try_except
            (descendants <- read (proc_children proc) ;;
             ret (proc :: descendants))
            caught
            (ret [proc])
        else ret [proc]) ;;
     for_each procs_to_kill
       (λ p, try_except (signal force p) caught (ret tt)) ;;
     ret true)
    caught
    (ret false).

(** The body of the loop of lines 83-97, as a function of the list built so
    far and of the process at hand. *)
Definition name_step (target_name : string) (force tree case_sensitive : bool)
    (killed_pids : list Value) (proc : Proc Handle) : M World (list Value) :=
  try_except
    (info <- of_outcome (info proc) ;;
     p_name <- getitem info "name" ;;
     if negb (py_truthy p_name) then ret killed_pids
     else
       is_match <-
         (if case_sensitive then ret (py_eq p_name (VStr target_name))
          else (l <- str_lower p_name ;; ret (String.eqb l target_name))) ;;
       if is_match : bool then
         killed <- _kill_proc_obj (handle proc) force tree ;;
         if killed : bool then
           pid <- getitem info "pid" ;;
           ret (killed_pids ++ [pid])
         else ret killed_pids
       else ret killed_pids)
    caught
    (ret killed_pids).

Definition kill_processes_by_name (name : string)
    (force tree case_sensitive : bool) : M World (list Value) :=
  let target_name := if case_sensitive then name else lower name in
  procs <- read (psutil_process_iter {[ "pid"; "name" ]}) ;;
  for_acc procs [] (name_step target_name force tree case_sensitive).


Definition kill_process_by_pid (pid : Z) (force tree : bool) : M World bool :=
  try_except
    (proc <- read (psutil_Process pid) ;;
     _kill_proc_obj proc force tree)
    (λ e, match e with NoSuchProcess => true | _ => false end)
    (ret false).

(** Lines 151-165. *)
Definition attributes_to_fetch (columns : list (string * string))
    (regex_filter : option (list (string * Re.Pattern)))
    (equal_filter not_equal_filter above_filter under_filter
       : option (list (string * Value)))
    (between_filter : option (list (string * (Value * Value))))
    : gset string :=
  list_to_set (first_segment <$> (snd <$> columns))
  ∪ list_to_set (first_segment <$> keys (items regex_filter))
  ∪ list_to_set (first_segment <$> keys (items equal_filter))
  ∪ list_to_set (first_segment <$> keys (items not_equal_filter))
  ∪ list_to_set (first_segment <$> keys (items above_filter))
  ∪ list_to_set (first_segment <$> keys (items under_filter))
  ∪ list_to_set (first_segment <$> keys (items between_filter)).

(** Lines 167-191. *)
Definition validators
    (regex_filter : option (list (string * Re.Pattern)))
    (equal_filter not_equal_filter above_filter under_filter
       : option (list (string * Value)))
    (between_filter : option (list (string * (Value * Value))))
    : list validator :=
  ((λ '(attr, pattern), partial_regex attr pattern) <$> items regex_filter)
  ++ ((λ '(attr, target), partial_equal attr target) <$> items equal_filter)
  ++ ((λ '(attr, target), partial_not_equal attr target)
        <$> items not_equal_filter)
  ++ ((λ '(attr, limit), partial_above attr limit) <$> items above_filter)
  ++ ((λ '(attr, limit), partial_under attr limit) <$> items under_filter)
  ++ ((λ '(attr, (min_v, max_v)), partial_between attr min_v max_v)
        <$> items between_filter).

(** The dict comprehension of lines 203-206. *)
Definition make_row (columns : list (string * string))
    (info : list (string * Value)) : Row :=
  fold_left
    (λ row '(col_name, attr_path),
       dict_set col_name (get_nested_val (VDict info) attr_path) row)
    columns [].

(** The body of the loop of lines 195-209, as a function of the rows
    collected so far and of the process at hand. *)
Definition table_step (columns : list (string * string))
    (validators : list validator) (data : list Row) (proc : Proc Handle)
    : M World (list Row) :=
  try_except
    (info <- of_outcome (info proc) ;;
     if negb (forallb (λ validate, call validate info) validators)
     then ret data
     else ret (data ++ [make_row columns info]))
    caught
    (ret data).

Definition get_process_table (columns : option (list (string * string)))
    (regex_filter : option (list (string * Re.Pattern)))
    (equal_filter not_equal_filter above_filter under_filter
       : option (list (string * Value)))
    (between_filter : option (list (string * (Value * Value))))
    : M World DataFrame :=
  let columns := default default_columns columns in
  let attributes_to_fetch :=
    attributes_to_fetch columns regex_filter equal_filter not_equal_filter
      above_filter under_filter between_filter in
  let validators :=
    validators regex_filter equal_filter not_equal_filter above_filter
      under_filter between_filter in
  procs <- read (psutil_process_iter attributes_to_fetch) ;;
  data <- for_acc procs [] (table_step columns validators) ;;
  ret {| records := data |}.

(** *** Notions used to state the properties *)

(** The Kill Plan of a call on [proc]: the process itself and, with [tree],
    the descendants psutil lists for it, or none when listing them fails. *)
Definition kill_plan (proc : Handle) (tree : bool) (w : World) : list Handle :=
  if tree then
    match proc_children proc w with
    | Ret descendants => proc :: descendants
    | Raise _ => [proc]
    end
  else [proc].

(** The state of the system once a signal has been sent to each member of a
    plan in turn, whatever each of the calls returned or raised. *)
Definition deliver (force : bool) (plan : list Handle) (w : World) : World :=
  fold_left (λ w' p, (signal force p w').2) plan w.

(** Every exception a signal raises is one of the two that are caught. *)
Definition signals_caught (force : bool) : Prop :=
  ∀ (p : Handle) (w : World) e, (signal force p w).1 = Raise e → caught e = true.

(** The snapshots of the enumerated processes whose [info] could be read. *)
Definition snapshots (procs : list (Proc Handle))
    : list (list (string * Value)) :=
  omap (λ proc, match info proc with
                | Ret i => Some i
                | Raise _ => None
                end) procs.

(** A snapshot passes all the validators (line 199). *)
Definition passes (validators : list validator) (i : list (string * Value))
    : bool :=
  forallb (λ validate, call validate i) validators.

(** The rows for the snapshots that could be read and pass all the
    validators, in the order of the enumeration. *)
Definition table_rows (columns : list (string * string))
    (validators : list validator) (procs : list (Proc Handle)) : list Row :=
  make_row columns <$> List.filter (passes validators) (snapshots procs).




(** A snapshot satisfies every entry of every filter. *)
Definition satisfies
    (regex_filter : option (list (string * Re.Pattern)))
    (equal_filter not_equal_filter above_filter under_filter
       : option (list (string * Value)))
    (between_filter : option (list (string * (Value * Value))))
    (i : list (string * Value)) : Prop :=
  (∀ attr pattern, (attr, pattern) ∈ items regex_filter →
     check_regex i attr pattern = true)
  ∧ (∀ attr target, (attr, target) ∈ items equal_filter →
       check_equal i attr target = true)
  ∧ (∀ attr target, (attr, target) ∈ items not_equal_filter →
       check_not_equal i attr target = true)
  ∧ (∀ attr limit, (attr, limit) ∈ items above_filter →
       check_above i attr limit = true)
  ∧ (∀ attr limit, (attr, limit) ∈ items under_filter →
       check_under i attr limit = true)
  ∧ (∀ attr min_v max_v, (attr, (min_v, max_v)) ∈ items between_filter →
       check_between i attr min_v max_v = true).

End Functions.

Section MoreFunctions.

Context {Handle World : Type} {psutil : Psutil Handle World}.

(** [any(f(p) for p in l)]: the elements are tried in turn and the first
    for which [f] holds ends the search. *)
Fixpoint any_of {A : Type} (l : list A) (f : A → M World bool) : M World bool :=
  match l with
  | [] => ret false
  | x :: rest => b <- f x ;; if b : bool then ret true else any_of rest f
  end.

Definition check_process_exists_by_name (name : string) (case_sensitive : bool)
    : M World bool :=
  let target_name := if case_sensitive then name else lower name in
  iterator <- read (psutil_process_iter {[ "name" ]}) ;;
  if case_sensitive then
    any_of iterator
      (λ p, info <- of_outcome (info p) ;;
            p_name <- getitem info "name" ;;
            ret (py_eq p_name (VStr target_name)))
  else
    any_of iterator
      (λ p, info <- of_outcome (info p) ;;
            p_name <- getitem info "name" ;;
            if py_truthy p_name then
              info' <- of_outcome (Process.info p) ;;
              p_name' <- getitem info' "name" ;;
              l <- str_lower p_name' ;;
              ret (String.eqb l target_name)
            else ret false).

(** *** Notions used to state further properties *)



(** The process has the name [check_process_exists_by_name] looks for. *)
Definition has_name (case_sensitive : bool) (name : string)
    (proc : Proc Handle) : bool :=
  match info proc with
  | Ret i =>
      match dict_get "name" i with
      | Some (VStr n) =>
          if case_sensitive then String.eqb n name
          else negb (String.eqb n "") && String.eqb (lower n) (lower name)
      | _ => false
      end
  | Raise _ => false
  end.

(** The [info] of the process could be read and has a name that is a string
    or [None]. *)
Definition readable_name (proc : Proc Handle) : Prop :=
  ∃ i, info proc = Ret i
       ∧ ((∃ n, dict_get "name" i = Some (VStr n))
          ∨ dict_get "name" i = Some VNone).

End MoreFunctions.

(** The cell of a column in the row of a snapshot. *)
Definition cell (i : list (string * Value)) (column : string * string)
    : string * Resolved :=
  (column.1, get_nested_val (VDict i) column.2).

(** [contains s w]: [w] occurs in [s]. *)
Definition contains (s w : string) : Prop := ∃ pre post, s = pre +:+ w +:+ post.

(** A path fails to resolve from [cur]: after some of its segments have
    been followed, the next one is missing from the mapping reached, or the
    value reached is not a mapping. *)
Definition unresolved (cur : Value) (segments : list string) : Prop :=
  ∃ done segment rest reached,
    segments = done ++ segment :: rest
    ∧ resolve cur done = Found reached
    ∧ match reached with
      | VDict d => dict_get segment d = None
      | _ => True
      end.

End Process.

(** ** A constructed fixture

    A small operating system to run the functions on: a process table whose
    entries are running, already gone, or protected against the caller, and
    a socket table. *)
Module Fixture.
Import Network Process.

Inductive state : Type := Running | Exited | Protected.

Record entry := {
  e_pid : Z;
  e_ppid : Z;
  e_state : state;
  e_attrs : list (string * Value)
}.

(** The process table and the signals delivered so far, [(pid, force)]. *)
Record world := {
  table : list entry;
  delivered : list (Z * bool)
}.

Definition lookup_pid (pid : Z) (t : list entry) : option entry :=
  List.find (λ e, Z.eqb (e_pid e) pid) t.

Definition mark_exited (pid : Z) (t : list entry) : list entry :=
  (λ e, if Z.eqb (e_pid e) pid
        then {| e_pid := e_pid e; e_ppid := e_ppid e; e_state := Exited;
                e_attrs := e_attrs e |}
        else e) <$> t.

Fixpoint descendants (fuel : nat) (t : list entry) (pid : Z) : list Z :=
  match fuel with
  | O => []
  | S fuel' =>
      flat_map (λ e, if Z.eqb (e_ppid e) pid
                     then e_pid e :: descendants fuel' t (e_pid e) else [])
               t
  end.

Definition fx_Process (pid : Z) (w : world) : outcome Z :=
  if Z.ltb pid 0 then Raise (ValueError "pid must be a positive integer")
  else
    match lookup_pid pid (table w) with
    | Some e =>
        match e_state e with
        | Exited => Raise NoSuchProcess
        | _ => Ret pid
        end
    | None => Raise NoSuchProcess
    end.

Definition fx_children (h : Z) (w : world) : outcome (list Z) :=
  match lookup_pid h (table w) with
  | Some e =>
      match e_state e with
      | Running => Ret (descendants (length (table w)) (table w) h)
      | Exited => Raise NoSuchProcess
      | Protected => Raise AccessDenied
      end
  | None => Raise NoSuchProcess
  end.

Definition fx_signal (force : bool) (h : Z) : M world unit :=
  λ w, match lookup_pid h (table w) with
       | Some e =>
           match e_state e with
           | Running =>
               (Ret tt, {| table := mark_exited h (table w);
                           delivered := delivered w ++ [(h, force)] |})
           | Exited => (Raise NoSuchProcess, w)
           | Protected => (Raise AccessDenied, w)
           end
       | None => (Raise NoSuchProcess, w)
       end.

Definition fx_process_iter (attrs : gset string) (w : world)
    : outcome (list (Proc Z)) :=
  Ret ((λ e, {| handle := e_pid e;
                info := match e_state e with
                        | Running =>
                            Ret (List.filter
                                   (λ kv, bool_decide (kv.1 ∈ attrs))
                                   (e_attrs e))
                        | Exited => Raise NoSuchProcess
                        | Protected => Raise AccessDenied
                        end |}) <$> table w).

Definition fx_psutil : Psutil Z world := {|
  psutil_Process := fx_Process;
  proc_children := fx_children;
  proc_terminate := fx_signal false;
  proc_kill := fx_signal true;
  psutil_process_iter := fx_process_iter
|}.

Definition fx_builtins : Builtins := {| py_repr := λ _, "<object>" |}.

Definition process (pid ppid : Z) (st : state) (name : string) (cpu rss : Z)
    : entry :=
  {| e_pid := pid; e_ppid := ppid; e_state := st;
     e_attrs := [("pid", VInt pid); ("name", VStr name);
                 ("status", VStr "running"); ("cpu_percent", VInt cpu);
                 ("memory_info", VDict [("rss", VInt rss)])] |}.

Definition w0 : world := {|
  table := [ process 1 0 Protected "init" 0 512;
             process 100 1 Running "svc-main" 75 4096;
             process 101 100 Running "worker" 60 2048;
             process 102 1 Running "Worker" 10 1024;
             process 103 100 Exited "websvc" 51 256;
             process 104 1 Running "svc-idle" 50 128;
             process 105 1 Running "other" 90 64;
             process 106 1 Running "websvc" 51 32 ];
  delivered := []
|}.

(** Ports 80 and 8080 are taken, every other port can be bound. *)
Definition fx_sockets : Sockets := {|
  try_bind := λ p, negb (Z.eqb p 80 || Z.eqb p 8080);
  net_connections :=
    [ {| laddr := Some {| ip := "127.0.0.1"; port := 8080 |}; pid := Some 100 |};
      {| laddr := Some {| ip := "0.0.0.0"; port := 80 |}; pid := Some 1 |};
      {| laddr := Some {| ip := "192.168.1.7"; port := 2222 |}; pid := Some 105 |};
      {| laddr := Some {| ip := "::1"; port := 8080 |}; pid := None |};
      {| laddr := None; pid := None |} ]
|}.

End Fixture.

(** ** A faulty system

    A second system to run the functions on, in which some calls fail with
    exceptions that the code does not catch. *)
Module Faulty.
Import Process.

(** The state is the list of the pids that received a signal. *)
Definition fy_Process (pid : Z) (w : list Z) : outcome Z :=
  if Z.eqb pid 13 then Raise AccessDenied else Ret pid.

Definition fy_children (h : Z) (w : list Z) : outcome (list Z) :=
  Ret [h + 1; h + 2; h + 3].

Definition fy_signal (h : Z) : M (list Z) unit :=
  λ w, if Z.eqb h 7 then (Raise (RuntimeError "boom"), w)
       else (Ret tt, w ++ [h]).

Definition fy_process_iter (attrs : gset string) (w : list Z)
    : outcome (list (Proc Z)) :=
  Ret [ {| handle := 1;
           info := Ret [("pid", VInt 1); ("name", VStr "alpha")] |};
        {| handle := 2; info := Raise (KeyError "info") |};
        {| handle := 3;
           info := Ret [("pid", VInt 3); ("name", VStr "beta")] |} ].

Definition fy_psutil : Psutil Z (list Z) := {|
  psutil_Process := fy_Process;
  proc_children := fy_children;
  proc_terminate := fy_signal;
  proc_kill := fy_signal;
  psutil_process_iter := fy_process_iter
|}.

(** The fixture with its running processes only. *)
Definition w_running : Fixture.world := {|
  Fixture.table :=
    List.filter (λ e, match Fixture.e_state e with
                      | Fixture.Running => true
                      | _ => false
                      end) (Fixture.table Fixture.w0);
  Fixture.delivered := []
|}.

End Faulty.

(** * Properties *)

Local Open Scope Z_scope.

(** ** Lists, sets and sorting *)

Lemma StronglySorted_le_lt (l : list Z) :
  StronglySorted Z.le l → NoDup l → StronglySorted Z.lt l.
Proof.
  induction 1 as [|x l Hs IH Hx]; intros Hnd; [constructor|].
  apply NoDup_cons in Hnd as [Hnotin Hnd].
  constructor; [by apply IH|].
  apply Forall_forall. intros y Hy.
  rewrite Forall_forall in Hx. specialize (Hx y Hy).
  assert (x ≠ y) by (intros ->; contradiction).
  lia.
Qed.

Lemma elem_of_sorted (s : gset Z) (p : Z) : p ∈ Network.sorted s ↔ p ∈ s.
Proof.
  unfold Network.sorted.
  rewrite (merge_sort_Permutation Z.le (elements s)).
  apply elem_of_elements.
Qed.

Lemma NoDup_sorted (s : gset Z) : NoDup (Network.sorted s).
Proof.
  unfold Network.sorted.
  rewrite (merge_sort_Permutation Z.le (elements s)).
  apply NoDup_elements.
Qed.

Lemma sorted_ascending (s : gset Z) : StronglySorted Z.lt (Network.sorted s).
Proof.
  apply StronglySorted_le_lt; [|apply NoDup_sorted].
  unfold Network.sorted. apply StronglySorted_merge_sort; apply _.
Qed.


Lemma elem_of_py_range (start stop p : Z) :
  p ∈ Network.py_range start stop ↔ start ≤ p < stop.
Proof. unfold Network.py_range. rewrite elem_of_seqZ. lia. Qed.

Lemma elem_of_ALL_PORTS_RANGE (p : Z) :
  p ∈ Network._ALL_PORTS_RANGE ↔ 1024 ≤ p < 49151.
Proof.
  unfold Network._ALL_PORTS_RANGE. rewrite elem_of_list_to_set.
  apply elem_of_py_range.
Qed.

(** ** network.py *)
Module NetworkFacts.
Import Network.

Section Snapshot.

Context {os : Sockets}.

Lemma elem_of_available_candidates (l : list Value) (p : Z) :
  p ∈ available_candidates l ↔ VInt p ∈ l ∧ try_bind p = true.
Proof.
  induction l as [|v l IH]; simpl.
  - rewrite !elem_of_nil. tauto.
  - destruct v as [|z| | |]; rewrite ?elem_of_cons, ?IH;
      try (split; [intros [? ?]; auto | intros [[?|?] ?]; [discriminate|auto]]).
    unfold _is_port_free. destruct (try_bind z) eqn:Hz.
    + rewrite elem_of_cons, IH. split.
      * intros [->|[? ?]]; auto.
      * intros [[[= ->]|?] ?]; auto.
    + rewrite IH. split.
      * intros [? ?]; auto.
      * intros [[[= ->]|?] ?]; [congruence|auto].
Qed.

Lemma fold_min_le (t : list Z) (x : Z) :
  fold_left Z.min t x ≤ x ∧ ∀ y, y ∈ t → fold_left Z.min t x ≤ y.
Proof.
  revert x. induction t as [|a t IH]; intros x; simpl.
  - split; [lia|]. intros y Hy. by apply elem_of_nil in Hy.
  - destruct (IH (Z.min x a)) as [H1 H2]. split; [lia|].
    intros y [->|Hy]%elem_of_cons; [lia|auto].
Qed.

Lemma fold_min_elem (t : list Z) (x : Z) : fold_left Z.min t x ∈ x :: t.
Proof.
  revert x. induction t as [|a t IH]; intros x; simpl.
  - apply list_elem_of_here.
  - specialize (IH (Z.min x a)).
    apply elem_of_cons in IH as [Heq|Hin].
    + rewrite Heq. destruct (Z.min_spec x a) as [[_ ->]|[_ ->]].
      * apply list_elem_of_here.
      * apply list_elem_of_further, list_elem_of_here.
    + by do 2 apply list_elem_of_further.
Qed.

Lemma py_min_spec (l : list Z) (m : Z) :
  py_min l = Some m → m ∈ l ∧ ∀ y, y ∈ l → m ≤ y.
Proof.
  destruct l as [|x t]; [discriminate|]. intros [= <-]. split.
  - apply fold_min_elem.
  - destruct (fold_min_le t x) as [H1 H2].
    intros y [->|Hy]%elem_of_cons; auto.
Qed.





Lemma elem_of_busy_port_set (p : Z) :
  p ∈ busy_port_set
  ↔ ∃ c a, c ∈ net_connections ∧ _is_localhost c = true
           ∧ laddr c = Some a ∧ port a = p.
Proof.
  unfold busy_port_set. rewrite elem_of_list_to_set, list_elem_of_omap.
  split.
  - intros (c & Hc & Hport). destruct (_is_localhost c) eqn:Hl; [|done].
    destruct (laddr c) as [a|] eqn:Ha; [|done].
    injection Hport as <-. by exists c, a.
  - intros (c & a & Hc & Hl & Ha & <-). exists c. split; [done|].
    by rewrite Hl, Ha.
Qed.

(** C10.  [get_localhost_free_ports] is the complement of the busy ports in
    the default range: [p] is returned exactly when [1024 <= p < 49151] and
    [p] is not among [get_localhost_busy_ports], which are the local ports of
    the connections classified as localhost; the list has no duplicates and
    is strictly ascending. *)
Theorem free_ports_complement :
  (∀ p, p ∈ get_localhost_free_ports
        ↔ 1024 ≤ p < 49151 ∧ p ∉ get_localhost_busy_ports)
  ∧ (∀ p, p ∈ get_localhost_busy_ports
          ↔ ∃ c a, c ∈ net_connections ∧ _is_localhost c = true
                   ∧ laddr c = Some a ∧ port a = p)
  ∧ NoDup get_localhost_free_ports
  ∧ StronglySorted Z.lt get_localhost_free_ports.
Proof.
  unfold get_localhost_free_ports, get_localhost_busy_ports.
  split; [|split; [|split]].
  - intros p.
    rewrite elem_of_sorted, elem_of_difference, elem_of_list_to_set.
    by rewrite elem_of_ALL_PORTS_RANGE.
  - intros p. rewrite elem_of_sorted. apply elem_of_busy_port_set.
  - apply NoDup_sorted.
  - apply sorted_ascending.
Qed.

End Snapshot.

(** The scenario of the specification, for every socket layer in which 80
    and 8080 are busy and 9999 is free. *)
Lemma minimum_free_port_80_8080_9999 (os : Sockets) :
  try_bind 80 = false → try_bind 8080 = false → try_bind 9999 = true →
  get_localhost_minimum_free_port
    (Some (PortSeq [VInt 80; VInt 8080; VInt 9999])) = Ret 9999.
Proof.
  intros H80 H8080 H9999.
  unfold get_localhost_minimum_free_port, from_candidates.
  cbn [available_candidates]. unfold _is_port_free.
  by rewrite H80, H8080, H9999.
Qed.


Example minimum_free_port_scenario :
  @get_localhost_minimum_free_port Fixture.fx_sockets
    (Some (PortSeq [VInt 80; VInt 8080; VInt 9999])) = Ret 9999.
Proof. reflexivity. Qed.

Example busy_ports_of_the_fixture :
  @get_localhost_busy_ports Fixture.fx_sockets = [80; 8080].
Proof. vm_compute. reflexivity. Qed.

End NetworkFacts.

(** ** Calls in the monad *)
Module MonadFacts.
Import Process.

Section Monad.

Context {World : Type}.

Lemma bind_Ret {A B : Type} (m : M World A) (k : A → M World B) w a w' :
  m w = (Ret a, w') → bind m k w = k a w'.
Proof. unfold bind. by intros ->. Qed.

Lemma bind_Raise {A B : Type} (m : M World A) (k : A → M World B) w e w' :
  m w = (Raise e, w') → bind m k w = (Raise e, w').
Proof. unfold bind. by intros ->. Qed.

Lemma try_except_Ret {A : Type} (body handler : M World A) handles w a w' :
  body w = (Ret a, w') → try_except body handles handler w = (Ret a, w').
Proof. unfold try_except. by intros ->. Qed.

Lemma try_except_Raise {A : Type} (body handler : M World A) handles w e w' :
  body w = (Raise e, w') →
  try_except body handles handler w
  = if handles e then handler w' else (Raise e, w').
Proof. unfold try_except. by intros ->. Qed.

End Monad.

End MonadFacts.

(** ** The fixture behaves as psutil documents *)
Module FixtureFacts.
Import Process Fixture.

Lemma fx_signals_caught (force : bool) :
  @signals_caught Z world fx_psutil force.
Proof.
  intros p w e. unfold signal. simpl.
  assert (H : ∀ f, (fx_signal f p w).1 = Raise e → caught e = true).
  { intros f. unfold fx_signal.
    destruct (lookup_pid p (table w)) as [en|]; [destruct (e_state en)|];
      simpl; by intros [= <-]. }
  destruct force; apply H.
Qed.

Lemma fx_children_caught (p : Z) (w : world) (e : exn) :
  fx_children p w = Raise e → caught e = true.
Proof.
  unfold fx_children.
  destruct (lookup_pid p (table w)) as [en|]; [destruct (e_state en)|];
    by intros [= <-].
Qed.

Lemma fx_info_caught (attrs : gset string) (w : world) (procs : list (Proc Z))
    (proc : Proc Z) (e : exn) :
  fx_process_iter attrs w = Ret procs →
  proc ∈ procs → info proc = Raise e → caught e = true.
Proof.
  intros [= <-] (en & -> & _)%list_elem_of_fmap. simpl.
  destruct (e_state en); by intros [= <-].
Qed.


End FixtureFacts.

(** ** process.py: termination *)
Module LifecycleFacts.
Import Process MonadFacts.
Local Open Scope monad_scope.

Section Lifecycle.

Context {Handle World : Type} {psutil : Psutil Handle World}.

Lemma deliver_cons (force : bool) (p : Handle) (plan : list Handle) (w : World) :
  deliver force (p :: plan) w = deliver force plan (signal force p w).2.
Proof. reflexivity. Qed.

(** One turn of the loop of lines 45-52: the signal is sent and what it
    raises is swallowed. *)
Lemma signal_attempt (force : bool) (p : Handle) (w : World) :
  signals_caught force →
  try_except (signal force p) caught (ret tt) w = (Ret tt, (signal force p w).2).
Proof.
  intros Hsig. destruct (signal force p w) as [[[]|e] w'] eqn:Hp.
  - by rewrite (try_except_Ret _ _ _ _ _ _ Hp).
  - rewrite (try_except_Raise _ _ _ _ _ _ Hp).
    by rewrite (Hsig p w e) by (by rewrite Hp).
Qed.

(** The loop reaches every member of the plan. *)
Lemma signal_loop (force : bool) (plan : list Handle) (w : World) :
  signals_caught force →
  for_each plan (λ p, try_except (signal force p) caught (ret tt)) w
  = (Ret tt, deliver force plan w).
Proof.
  intros Hsig. revert w. induction plan as [|p plan IH]; intros w; [done|].
  rewrite deliver_cons. cbn [for_each].
  rewrite (bind_Ret _ _ _ _ _ (signal_attempt force p w Hsig)). apply IH.
Qed.

(** Lines 37-43: the list [procs_to_kill]. *)
Lemma procs_to_kill_spec (proc : Handle) (tree : bool) (w : World) :
  (∀ e, proc_children proc w = Raise e → caught e = true) →
  (if tree then
     try_except
       (descendants <- read (proc_children proc) ;; ret (proc :: descendants))
       caught (ret [proc])
   else ret [proc]) w
  = (Ret (kill_plan proc tree w), w).
Proof.
  intros Hkids. unfold kill_plan. destruct tree; [|done].
  destruct (proc_children proc w) as [ds|e] eqn:Hc.
  - apply try_except_Ret. by rewrite (bind_Ret _ _ w ds w) by (unfold read; by rewrite Hc).
  - erewrite try_except_Raise
      by (apply bind_Raise; unfold read; by rewrite Hc).
    by rewrite (Hkids e eq_refl).
Qed.

Lemma kill_proc_obj_spec (proc : Handle) (force tree : bool) (w : World) :
  signals_caught force →
  (∀ e, proc_children proc w = Raise e → caught e = true) →
  _kill_proc_obj proc force tree w
  = (Ret true, deliver force (kill_plan proc tree w) w).
Proof.
  intros Hsig Hkids. unfold _kill_proc_obj.
  apply try_except_Ret.
  rewrite (bind_Ret _ _ _ _ _ (procs_to_kill_spec proc tree w Hkids)).
  by rewrite (bind_Ret _ _ _ _ _ (signal_loop force _ w Hsig)).
Qed.

(** C2.  When [psutil.Process(pid)] resolves to [root], signals fail only
    with [NoSuchProcess] or [AccessDenied], and listing the descendants
    fails, if at all, with one of those two, [kill_process_by_pid] returns
    [True] and leaves the system as it is after a signal has been sent to
    every member of the kill plan in turn, whatever the earlier attempts
    raised.  With [tree] the plan is [root] followed by the descendants
    listed, and [root] alone when listing them fails. *)
Theorem tree_kill_is_best_effort (pid : Z) (force tree : bool) (w : World)
    (root : Handle) :
  psutil_Process pid w = Ret root →
  signals_caught force →
  (∀ e, proc_children root w = Raise e → caught e = true) →
  kill_process_by_pid pid force tree w
    = (Ret true, deliver force (kill_plan root tree w) w)
  ∧ (∀ p plan w', deliver force (p :: plan) w'
                  = deliver force plan (signal force p w').2)
  ∧ (∀ ds, proc_children root w = Ret ds → kill_plan root true w = root :: ds)
  ∧ (∀ e, proc_children root w = Raise e → kill_plan root true w = [root]).
Proof.
  intros Hroot Hsig Hkids. split; [|split; [|split]].
  - unfold kill_process_by_pid. apply try_except_Ret.
    rewrite (bind_Ret _ _ w root w) by (unfold read; by rewrite Hroot).
    by apply kill_proc_obj_spec.
  - intros. apply deliver_cons.
  - intros ds Hds. unfold kill_plan. by rewrite Hds.
  - intros e He. unfold kill_plan. by rewrite He.
Qed.

(** C8.  On a pid for which [psutil.Process(pid)] raises [NoSuchProcess],
    [kill_process_by_pid] returns [False] without raising and leaves the
    system untouched, so that a second call returns [False] again. *)
Theorem kill_dead_pid_twice (pid : Z) (force tree force' tree' : bool)
    (w : World) :
  psutil_Process pid w = Raise NoSuchProcess →
  kill_process_by_pid pid force tree w = (Ret false, w)
  ∧ kill_process_by_pid pid force' tree'
      (kill_process_by_pid pid force tree w).2 = (Ret false, w).
Proof.
  intros Hdead.
  assert (H : ∀ f t, kill_process_by_pid pid f t w = (Ret false, w)).
  { intros f t. unfold kill_process_by_pid, try_except, bind, read.
    by rewrite Hdead. }
  by rewrite !H.
Qed.

Lemma py_truthy_VStr (n : string) : py_truthy (VStr n) = negb (String.eqb n "").
Proof. by destruct n. Qed.







End Lifecycle.

(** The scenario of the specification on the fixture: process 100 has the
    children 101, which runs, and 103, which has already exited. *)
Lemma tree_kill_is_best_effort_witness :
  let os := Fixture.fx_psutil in
  let w := Fixture.w0 in
  psutil_Process 100 w = Ret 100
  ∧ signals_caught false
  ∧ (∀ e, proc_children 100 w = Raise e → caught e = true)
  ∧ kill_plan 100 true w = [100; 101; 103]
  ∧ (signal false 103 w).1 = Raise NoSuchProcess
  ∧ Fixture.delivered (deliver false (kill_plan 100 true w) w)
    = [(100, false); (101, false)]
  ∧ kill_process_by_pid 100 false true w
    = (Ret true, deliver false (kill_plan 100 true w) w).
Proof.
  intros os w.
  assert (H1 : psutil_Process 100 w = Ret 100) by reflexivity.
  assert (H2 : signals_caught false) by apply FixtureFacts.fx_signals_caught.
  assert (H3 : ∀ e, proc_children 100 w = Raise e → caught e = true)
    by (intros e; apply FixtureFacts.fx_children_caught).
  split; [exact H1|]. split; [exact H2|]. split; [exact H3|].
  split; [reflexivity|]. split; [reflexivity|]. split; [reflexivity|].
  exact (proj1 (tree_kill_is_best_effort 100 false true w 100 H1 H2 H3)).
Defined.

(** A pid that is not in the process table of the fixture. *)
Lemma kill_dead_pid_twice_witness :
  let os := Fixture.fx_psutil in
  let w := Fixture.w0 in
  psutil_Process 999 w = Raise NoSuchProcess
  ∧ kill_process_by_pid 999 false false w = (Ret false, w)
  ∧ kill_process_by_pid 999 true true
      (kill_process_by_pid 999 false false w).2 = (Ret false, w).
Proof.
  intros os w.
  assert (H : psutil_Process 999 w = Raise NoSuchProcess) by reflexivity.
  split; [exact H|].
  exact (kill_dead_pid_twice 999 false false true true w H).
Defined.


Example kill_workers_on_the_fixture :
  (@kill_processes_by_name _ _ Fixture.fx_psutil "WORKER" false false false
     Fixture.w0).1 = Ret [VInt 101; VInt 102].
Proof. vm_compute. reflexivity. Qed.

Example kill_workers_case_sensitive :
  (@kill_processes_by_name _ _ Fixture.fx_psutil "Worker" false false true
     Fixture.w0).1 = Ret [VInt 102].
Proof. vm_compute. reflexivity. Qed.

Example kill_needs_the_whole_name :
  (@kill_processes_by_name _ _ Fixture.fx_psutil "work" false false false
     Fixture.w0).1 = Ret [].
Proof. vm_compute. reflexivity. Qed.

Example kill_exited_pid :
  @kill_process_by_pid _ _ Fixture.fx_psutil 103 false true Fixture.w0
  = (Ret false, Fixture.w0).
Proof. reflexivity. Qed.

Example kill_protected_pid :
  (@kill_process_by_pid _ _ Fixture.fx_psutil 1 true true Fixture.w0).1
  = Ret true.
Proof. reflexivity. Qed.

End LifecycleFacts.

(** ** Regular expressions *)
Module ReFacts.
Import Re.

Lemma append_cons (a : ascii) (s t : string) :
  String a s +:+ t = String a (s +:+ t).
Proof. reflexivity. Qed.

Lemma append_nil_r (s : string) : s +:+ "" = s.
Proof. induction s as [|a s IH]; [done|]. by rewrite append_cons, IH. Qed.

Lemma append_assoc (s t u : string) : (s +:+ t) +:+ u = s +:+ t +:+ u.
Proof. induction s as [|a s IH]; [done|]. by rewrite !append_cons, IH. Qed.

Lemma append_eq_nil (s t : string) : s +:+ t = "" → s = "" ∧ t = "".
Proof. destruct s; [done|discriminate]. Qed.

Lemma append_eq_cons (s t u : string) (a : ascii) :
  s +:+ t = String a u →
  (s = "" ∧ t = String a u) ∨ (∃ s', s = String a s' ∧ u = s' +:+ t).
Proof.
  destruct s as [|b s]; [by left|]. intros [= -> <-]. right. by exists s.
Qed.

Lemma lang_Eps_inv (s : string) : lang Eps s → s = "".
Proof. by inversion 1. Qed.

Lemma lang_Void_inv (s : string) : ¬ lang Void s.
Proof. by inversion 1. Qed.

Lemma nullable_spec (r : Pattern) : nullable r = true ↔ lang r "".
Proof.
  split.
  - induction r as [| | | |r1 IH1 r2 IH2|r1 IH1 r2 IH2|r IH]; simpl;
      try discriminate.
    + intros _. constructor.
    + intros [H1 H2]%andb_true_iff.
      apply (lang_cat r1 r2 "" ""); auto.
    + intros [H|H]%orb_true_iff; [apply lang_alt_l|apply lang_alt_r]; auto.
    + intros _. constructor.
  - intros H. remember "" as s eqn:Hs.
    induction H as [| | |r1 r2 s1 s2 _ IH1 _ IH2|r1 r2 s _ IH|r1 r2 s _ IH| |];
      simpl; try done.
    + apply append_eq_nil in Hs as [-> ->]. by rewrite IH1, IH2.
    + by rewrite IH.
    + rewrite IH by done. apply orb_true_r.
Qed.

Lemma deriv_sound (a : ascii) (r : Pattern) (s : string) :
  lang (deriv a r) s → lang r (String a s).
Proof.
  revert s.
  induction r as [| |c| |r1 IH1 r2 IH2|r1 IH1 r2 IH2|r IH]; intros s; simpl.
  - by intros ?%lang_Void_inv.
  - by intros ?%lang_Void_inv.
  - destruct (Ascii.eqb_spec a c) as [->|_].
    + intros ->%lang_Eps_inv. constructor.
    + by intros ?%lang_Void_inv.
  - destruct (Ascii.eqb_spec a newline) as [_|Hne].
    + by intros ?%lang_Void_inv.
    + intros ->%lang_Eps_inv. by constructor.
  - assert (Hcat : lang (Cat (deriv a r1) r2) s → lang (Cat r1 r2) (String a s)).
    { inversion 1 as [| | |? ? s1 s2 H1 H2| | | |]; subst.
      apply (lang_cat r1 r2 (String a s1) s2); auto. }
    destruct (nullable r1) eqn:Hn; [|done].
    inversion 1 as [| | | |? ? ? H1|? ? ? H2| |]; subst; [auto|].
    apply (lang_cat r1 r2 "" (String a s)); [by apply nullable_spec|auto].
  - inversion 1; subst; [apply lang_alt_l|apply lang_alt_r]; auto.
  - inversion 1 as [| | |? ? s1 s2 H1 H2| | | |]; subst.
    apply (lang_star_cons r (String a s1) s2); auto.
Qed.

Lemma deriv_complete (a : ascii) (r : Pattern) (s : string) :
  lang r (String a s) → lang (deriv a r) s.
Proof.
  intros H. remember (String a s) as x eqn:Hx. revert s Hx.
  induction H as [|c|c Hc|r1 r2 s1 s2 H1 IH1 H2 IH2|r1 r2 x H IH|r1 r2 x H IH
                 |r|r s1 s2 H1 IH1 H2 IH2]; intros s Hx; simpl.
  - discriminate.
  - injection Hx as -> <-. rewrite Ascii.eqb_refl. constructor.
  - injection Hx as -> <-.
    destruct (Ascii.eqb_spec a newline); [done|constructor].
  - assert (Hl : ∀ s', s1 = String a s' → s = s' +:+ s2 →
                       lang (Cat (deriv a r1) r2) s).
    { intros s' -> ->. constructor; auto. }
    apply append_eq_cons in Hx as [[-> ->]|(s' & -> & ->)].
    + apply nullable_spec in H1. rewrite H1. apply lang_alt_r. auto.
    + destruct (nullable r1); [apply lang_alt_l|]; eauto.
  - apply lang_alt_l. auto.
  - apply lang_alt_r. auto.
  - discriminate.
  - apply append_eq_cons in Hx as [[-> ->]|(s' & -> & ->)].
    + apply (IH2 s eq_refl).
    + constructor; auto.
Qed.

Lemma match_spec (r : Pattern) (s : string) :
  match_ r s = true ↔ ∃ p q, s = p +:+ q ∧ lang r p.
Proof.
  revert r. induction s as [|a t IH]; intros r; simpl.
  - rewrite orb_false_r, nullable_spec. split.
    + intros H. by exists "", "".
    + intros (p & q & Hpq & H). symmetry in Hpq.
      by apply append_eq_nil in Hpq as [-> ->].
  - rewrite orb_true_iff, nullable_spec, IH. split.
    + intros [H|(p & q & -> & H)].
      * by exists "", (String a t).
      * exists (String a p), q. split; [done|]. by apply deriv_sound.
    + intros (p & q & Hpq & H). symmetry in Hpq.
      apply append_eq_cons in Hpq as [[-> ->]|(p' & -> & ->)]; [by left|].
      right. exists p', q. split; [done|]. by apply deriv_complete.
Qed.

Lemma search_spec (r : Pattern) (s : string) :
  search r s = true ↔ ∃ pre m post, s = pre +:+ m +:+ post ∧ lang r m.
Proof.
  induction s as [|a t IH]; cbn [search].
  - rewrite orb_false_r, match_spec. split.
    + intros (p & q & -> & H). by exists "", p, q.
    + intros (pre & m & post & Hs & H). symmetry in Hs.
      apply append_eq_nil in Hs as [-> Hs]. by exists m, post.
  - rewrite orb_true_iff, match_spec, IH. split.
    + intros [(p & q & -> & H)|(pre & m & post & -> & H)].
      * by exists "", p, q.
      * by exists (String a pre), m, post.
    + intros (pre & m & post & Hs & H). symmetry in Hs.
      apply append_eq_cons in Hs as [[-> Hs]|(pre' & -> & ->)].
      * left. by exists m, post.
      * right. by exists pre', m, post.
Qed.

Lemma lang_literal (w m : string) : lang (literal w) m ↔ m = w.
Proof.
  revert m. induction w as [|c t IH]; intros m; simpl.
  - split; [apply lang_Eps_inv|]. intros ->. constructor.
  - split.
    + inversion 1 as [| | |? ? s1 s2 H1 H2| | | |]; subst.
      inversion H1; subst. apply IH in H2 as ->. done.
    + intros ->. apply (lang_cat (Chr c) (literal t) (String c "") t).
      * constructor.
      * by apply IH.
Qed.

Lemma search_literal (w s : string) :
  search (literal w) s = true ↔ Process.contains s w.
Proof.
  rewrite search_spec. unfold Process.contains. split.
  - intros (pre & m & post & -> & ->%lang_literal). by exists pre, post.
  - intros (pre & post & ->). exists pre, w, post. split; [done|].
    by apply lang_literal.
Qed.

End ReFacts.

(** ** process.py: the process table *)
Module TableFacts.
Import Process MonadFacts.
Local Open Scope monad_scope.

Section Table.

Context {Handle World : Type} {psutil : Psutil Handle World}.
Context {builtins : Builtins}.

Lemma table_rows_cons (columns : list (string * string))
    (vs : list validator) (proc : Proc Handle) (procs : list (Proc Handle)) :
  table_rows columns vs (proc :: procs)
  = table_rows columns vs [proc] ++ table_rows columns vs procs.
Proof.
  unfold table_rows, snapshots. simpl.
  destruct (info proc) as [i|]; simpl; [|done].
  by destruct (passes vs i).
Qed.

Lemma table_step_spec (columns : list (string * string))
    (vs : list validator) (data : list Row) (proc : Proc Handle) (w : World) :
  (∀ e, info proc = Raise e → caught e = true) →
  table_step columns vs data proc w
  = (Ret (data ++ table_rows columns vs [proc]), w).
Proof.
  intros Hfail. unfold table_step, table_rows, snapshots. simpl.
  destruct (info proc) as [i|e] eqn:Hi.
  - apply try_except_Ret. rewrite (bind_Ret _ _ w i w) by done.
    simpl. unfold passes. destruct (forallb _ vs); simpl; unfold ret.
    + done.
    + by rewrite app_nil_r.
  - erewrite try_except_Raise by (by apply bind_Raise).
    rewrite (Hfail e eq_refl). unfold ret. by rewrite app_nil_r.
Qed.

Lemma table_loop_spec (columns : list (string * string))
    (vs : list validator) (procs : list (Proc Handle)) (data : list Row)
    (w : World) :
  (∀ proc e, proc ∈ procs → info proc = Raise e → caught e = true) →
  for_acc procs data (table_step columns vs) w
  = (Ret (data ++ table_rows columns vs procs), w).
Proof.
  revert data. induction procs as [|proc procs IH]; intros data Hfail.
  - simpl. unfold ret, table_rows. simpl. by rewrite app_nil_r.
  - cbn [for_acc].
    rewrite (bind_Ret _ _ _ _ _ (table_step_spec columns vs data proc w
      (λ e, Hfail proc e (list_elem_of_here _ _)))).
    rewrite IH by eauto using list_elem_of_further.
    by rewrite (table_rows_cons _ _ proc procs), (assoc_L (++)).
Qed.

Lemma get_process_table_spec (columns : option (list (string * string)))
    (regex_filter : option (list (string * Re.Pattern)))
    (equal_filter not_equal_filter above_filter under_filter
       : option (list (string * Value)))
    (between_filter : option (list (string * (Value * Value))))
    (w : World) (procs : list (Proc Handle)) :
  psutil_process_iter
    (attributes_to_fetch (default default_columns columns) regex_filter
       equal_filter not_equal_filter above_filter under_filter between_filter)
    w = Ret procs →
  (∀ proc e, proc ∈ procs → info proc = Raise e → caught e = true) →
  get_process_table columns regex_filter equal_filter not_equal_filter
    above_filter under_filter between_filter w
  = (Ret {| records :=
              table_rows (default default_columns columns)
                (validators regex_filter equal_filter not_equal_filter
                   above_filter under_filter between_filter) procs |}, w).
Proof.
  intros Hiter Hfail. unfold get_process_table.
  rewrite (bind_Ret _ _ w procs w) by (unfold read; by rewrite Hiter).
  by rewrite (bind_Ret _ _ _ _ _ (table_loop_spec _ _ procs [] w Hfail)).
Qed.



Lemma dict_set_fresh {V : Type} (k : string) (v : V) (d : list (string * V)) :
  k ∉ keys d → dict_set k v d = d ++ [(k, v)].
Proof.
  induction d as [|[k' v'] d IH]; simpl; [done|].
  intros [Hne Hnotin]%not_elem_of_cons.
  destruct (String.eqb_spec k k'); [done|]. by rewrite IH.
Qed.

Lemma fold_row_spec (i : list (string * Value)) (columns : list (string * string))
    (row : Row) :
  NoDup (keys row ++ keys columns) →
  fold_left
    (λ row '(col_name, attr_path),
       dict_set col_name (get_nested_val (VDict i) attr_path) row)
    columns row
  = row ++ (cell i <$> columns).
Proof.
  revert row. induction columns as [|[c p] columns IH]; intros row Hnd; simpl.
  - by rewrite app_nil_r.
  - assert (Hc : c ∉ keys row).
    { apply NoDup_app in Hnd as (_ & Hdisj & _). intros Hin.
      apply (Hdisj c Hin). apply list_elem_of_here. }
    rewrite dict_set_fresh by done. rewrite IH.
    + by rewrite <- (assoc_L (++)).
    + unfold keys in *. rewrite fmap_app. simpl.
      by rewrite <- (assoc_L (++)).
Qed.

Lemma make_row_spec (i : list (string * Value)) (columns : list (string * string)) :
  NoDup (keys columns) → make_row columns i = cell i <$> columns.
Proof. intros Hnd. unfold make_row. by rewrite fold_row_spec. Qed.

Lemma keys_cells (i : list (string * Value)) (columns : list (string * string)) :
  keys (cell i <$> columns) = keys columns.
Proof. unfold keys. rewrite <- list_fmap_compose. by apply list_fmap_ext. Qed.

Lemma dict_get_cells (i : list (string * Value))
    (columns : list (string * string)) (c path : string) :
  NoDup (keys columns) → (c, path) ∈ columns →
  dict_get c (cell i <$> columns) = Some (get_nested_val (VDict i) path).
Proof.
  induction columns as [|[c' p'] columns IH]; simpl.
  - intros _ Hin. by apply elem_of_nil in Hin.
  - intros [Hnotin Hnd]%NoDup_cons [[= -> ->]|Hin]%elem_of_cons.
    + by rewrite String.eqb_refl.
    + destruct (String.eqb_spec c c') as [->|_]; [|by apply IH].
      exfalso. apply Hnotin. unfold keys.
      apply (list_elem_of_fmap_2 fst _ (c', path)). done.
Qed.

Lemma resolve_app (cur : Value) (l1 l2 : list string) :
  resolve cur (l1 ++ l2)
  = match resolve cur l1 with
    | Found v => resolve v l2
    | Absent => Absent
    end.
Proof.
  revert cur. induction l1 as [|seg l1 IH]; intros cur; simpl; [done|].
  destruct (index cur seg); [apply IH|done].
Qed.

Lemma index_Absent (cur : Value) (segment : string) :
  index cur segment = Absent
  ↔ match cur with
    | VDict d => dict_get segment d = None
    | _ => True
    end.
Proof.
  destruct cur as [| | | |d]; simpl; try done.
  destruct (dict_get segment d); split; done.
Qed.

Lemma resolve_Absent (cur : Value) (segments : list string) :
  resolve cur segments = Absent ↔ unresolved cur segments.
Proof.
  unfold unresolved. split.
  - revert cur. induction segments as [|seg rest IH]; intros cur; simpl; [done|].
    destruct (index cur seg) as [v|] eqn:Hidx.
    + intros (done' & segment & rest' & reached & -> & Hres & Hfail)%IH.
      exists (seg :: done'), segment, rest', reached.
      split; [done|]. split; [|done]. simpl. by rewrite Hidx.
    + intros _. exists [], seg, rest, cur.
      split; [done|]. split; [done|]. by apply index_Absent.
  - intros (done' & segment & rest & reached & -> & Hres & Hfail).
    rewrite resolve_app, Hres. simpl.
    apply index_Absent in Hfail. by rewrite Hfail.
Qed.

(** C9.  With the columns of a [dict] (no key twice), every row of the
    table has the requested column names as its keys, in the same order and
    nothing else, and holds for each column what its path resolves to in the
    snapshot of the process; a path that does not resolve, because a segment
    is missing or because the value reached cannot be indexed, gives the
    Absent marker and no exception. *)
Theorem rows_have_the_requested_columns
    (columns : option (list (string * string)))
    (regex_filter : option (list (string * Re.Pattern)))
    (equal_filter not_equal_filter above_filter under_filter
       : option (list (string * Value)))
    (between_filter : option (list (string * (Value * Value))))
    (w : World) (procs : list (Proc Handle)) :
  psutil_process_iter
    (attributes_to_fetch (default default_columns columns) regex_filter
       equal_filter not_equal_filter above_filter under_filter between_filter)
    w = Ret procs →
  (∀ proc e, proc ∈ procs → info proc = Raise e → caught e = true) →
  NoDup (keys (default default_columns columns)) →
  ∃ data,
    get_process_table columns regex_filter equal_filter not_equal_filter
      above_filter under_filter between_filter w
    = (Ret {| records := data |}, w)
    ∧ (∀ row, row ∈ data →
         keys row = keys (default default_columns columns)
         ∧ ∃ i, i ∈ snapshots procs
                ∧ ∀ c path, (c, path) ∈ default default_columns columns →
                    dict_get c row = Some (get_nested_val (VDict i) path))
    ∧ (∀ v path, get_nested_val v path = Absent
                 ↔ unresolved v (split "." path)).
Proof.
  intros Hiter Hfail Hnd. eexists. split; [|split].
  - by apply get_process_table_spec.
  - intros row (i & -> & Hi)%list_elem_of_fmap.
    apply list_elem_of_In, List.filter_In in Hi as [Hi _].
    apply list_elem_of_In in Hi.
    rewrite make_row_spec by done. split; [apply keys_cells|].
    exists i. split; [done|]. intros c path Hc. by apply dict_get_cells.
  - intros v path. apply resolve_Absent.
Qed.

Lemma passes_app (vs1 vs2 : list validator) (i : list (string * Value)) :
  passes (vs1 ++ vs2) i = passes vs1 i && passes vs2 i.
Proof. unfold passes. apply forallb_app. Qed.

Lemma passes_fmap {A : Type} (f : A → validator) (l : list A)
    (i : list (string * Value)) :
  passes (f <$> l) i = true ↔ ∀ x, x ∈ l → call (f x) i = true.
Proof.
  unfold passes. rewrite forallb_forall. split.
  - intros H x Hx. apply H, list_elem_of_In. by apply list_elem_of_fmap_2.
  - intros H v (x & -> & Hx)%list_elem_of_In%list_elem_of_fmap. by apply H.
Qed.

Lemma passes_satisfies
    (regex_filter : option (list (string * Re.Pattern)))
    (equal_filter not_equal_filter above_filter under_filter
       : option (list (string * Value)))
    (between_filter : option (list (string * (Value * Value))))
    (i : list (string * Value)) :
  passes (validators regex_filter equal_filter not_equal_filter above_filter
            under_filter between_filter) i = true
  ↔ satisfies regex_filter equal_filter not_equal_filter above_filter
      under_filter between_filter i.
Proof.
  unfold validators, satisfies.
  rewrite !passes_app, !andb_true_iff, !passes_fmap.
  split; intros (H1 & H2 & H3 & H4 & H5 & H6); split_and!.
  1-5: intros attr x Hx;
    first [ apply (H1 (attr, x) Hx) | apply (H2 (attr, x) Hx)
          | apply (H3 (attr, x) Hx) | apply (H4 (attr, x) Hx)
          | apply (H5 (attr, x) Hx) ].
  - intros attr x y Hx. apply (H6 (attr, (x, y)) Hx).
  - intros [attr x] Hx. apply (H1 attr x Hx).
  - intros [attr x] Hx. apply (H2 attr x Hx).
  - intros [attr x] Hx. apply (H3 attr x Hx).
  - intros [attr x] Hx. apply (H4 attr x Hx).
  - intros [attr x] Hx. apply (H5 attr x Hx).
  - intros [attr [x y]] Hx. apply (H6 attr x y Hx).
Qed.

Lemma py_lt_VInt (a : Z) (v : Value) :
  py_lt (VInt a) v = Some true ↔ ∃ z, v = VInt z ∧ a < z.
Proof.
  destruct v as [|z| | |]; simpl; try (split; [done|by intros (? & ? & ?)]).
  split.
  - intros [= H%Z.ltb_lt]. by exists z.
  - intros (z' & [= <-] & H). f_equal. by apply Z.ltb_lt.
Qed.

Lemma check_above_spec (i : list (string * Value)) (attr : string)
    (limit : Value) :
  check_above i attr limit = true
  ↔ ∃ v, get_nested_val (VDict i) attr = Found v ∧ py_lt limit v = Some true.
Proof.
  unfold check_above. destruct (get_nested_val (VDict i) attr) as [v|].
  - split.
    + intros H. exists v. split; [done|].
      by destruct (py_lt limit v) as [[]|].
    + by intros (v' & [= <-] & ->).
  - split; [done|]. by intros (v & ? & _).
Qed.

Lemma check_regex_spec (i : list (string * Value)) (attr : string)
    (pattern : Re.Pattern) :
  check_regex i attr pattern = true
  ↔ ∃ v, get_nested_val (VDict i) attr = Found v
         ∧ Re.search pattern (py_str v) = true.
Proof.
  unfold check_regex. destruct (get_nested_val (VDict i) attr) as [v|].
  - split; [intros H; by exists v|]. by intros (v' & [= <-] & ?).
  - split; [done|]. by intros (v & ? & _).
Qed.

(** C4.  A process gets a row exactly when its snapshot could be read and
    satisfies every entry of every filter: the six kinds are combined with a
    conjunction, and an attribute without an entry is not constrained.  With
    [regex_filter = {"name": "svc"}] and [above_filter = {"cpu_percent": 50}]
    the snapshots kept are those whose name contains ["svc"] and whose
    [cpu_percent] is an integer above 50. *)
Theorem filters_combine_with_and
    (columns : option (list (string * string)))
    (regex_filter : option (list (string * Re.Pattern)))
    (equal_filter not_equal_filter above_filter under_filter
       : option (list (string * Value)))
    (between_filter : option (list (string * (Value * Value))))
    (w : World) (procs : list (Proc Handle)) :
  psutil_process_iter
    (attributes_to_fetch (default default_columns columns) regex_filter
       equal_filter not_equal_filter above_filter under_filter between_filter)
    w = Ret procs →
  (∀ proc e, proc ∈ procs → info proc = Raise e → caught e = true) →
  ∃ keep : list (string * Value) → bool,
    get_process_table columns regex_filter equal_filter not_equal_filter
      above_filter under_filter between_filter w
    = (Ret {| records :=
                make_row (default default_columns columns)
                <$> List.filter keep (snapshots procs) |}, w)
    ∧ (∀ i, keep i = true
            ↔ satisfies regex_filter equal_filter not_equal_filter
                above_filter under_filter between_filter i)
    ∧ (∀ i, satisfies (Some [("name", Re.literal "svc")]) None None
              (Some [("cpu_percent", VInt 50)]) None None i
            ↔ (∃ v, get_nested_val (VDict i) "name" = Found v
                    ∧ contains (py_str v) "svc")
              ∧ (∃ z, get_nested_val (VDict i) "cpu_percent" = Found (VInt z)
                      ∧ 50 < z)).
Proof.
  intros Hiter Hfail.
  exists (passes (validators regex_filter equal_filter not_equal_filter
                    above_filter under_filter between_filter)).
  split; [|split].
  - by apply get_process_table_spec.
  - intros i. apply passes_satisfies.
  - intros i. rewrite <- passes_satisfies. unfold validators, passes. simpl.
    rewrite !andb_true_r, andb_true_iff.
    rewrite check_regex_spec, check_above_spec.
    assert (Hname :
      (∃ v, get_nested_val (VDict i) "name" = Found v
            ∧ Re.search (Re.literal "svc") (py_str v) = true)
      ↔ (∃ v, get_nested_val (VDict i) "name" = Found v
              ∧ contains (py_str v) "svc")).
    { split; intros (v & Hv & H); exists v; split; try done;
        by apply ReFacts.search_literal. }
    assert (Hcpu :
      (∃ v, get_nested_val (VDict i) "cpu_percent" = Found v
            ∧ py_lt (VInt 50) v = Some true)
      ↔ (∃ z, get_nested_val (VDict i) "cpu_percent" = Found (VInt z)
              ∧ 50 < z)).
    { split.
      - intros (v & Hv & (z & -> & Hz)%py_lt_VInt). by exists z.
      - intros (z & Hv & Hz). exists (VInt z). split; [done|].
        apply py_lt_VInt. by exists z. }
    by rewrite Hname, Hcpu.
Qed.

Lemma Value_ind' (P : Value → Prop) :
  P VNone → (∀ z, P (VInt z)) → (∀ s, P (VStr s)) →
  (∀ l, Forall P l → P (VList l)) →
  (∀ d, Forall (λ kv, P kv.2) d → P (VDict d)) →
  ∀ v, P v.
Proof.
  intros HNone HInt HStr HList HDict. fix IH 1. intros [|z|s|l|d].
  - apply HNone.
  - apply HInt.
  - apply HStr.
  - apply HList. induction l as [|x l IHl]; constructor; [apply IH|apply IHl].
  - apply HDict. induction d as [|[k x] d IHd]; constructor;
      [apply IH|apply IHd].
Qed.

(** No value is below itself. *)
Lemma py_lt_irrefl (v : Value) : py_lt v v ≠ Some true.
Proof.
  induction v as [|z|s|l Hl|d _] using Value_ind'; simpl; try done.
  - by rewrite Z.ltb_irrefl.
  - unfold String.ltb. pose proof (String.compare_antisym s s) as H.
    destruct (String.compare s s); simpl in H; done.
  - induction Hl as [|x l Hx _ IH]; [done|].
    destruct (py_eq x x); [apply IH|apply Hx].
Qed.

Lemma check_between_spec (i : list (string * Value)) (attr : string)
    (min_v max_v : Value) :
  check_between i attr min_v max_v = true
  ↔ ∃ v, get_nested_val (VDict i) attr = Found v
         ∧ py_lt min_v v = Some true ∧ py_lt v max_v = Some true.
Proof.
  unfold check_between. destruct (get_nested_val (VDict i) attr) as [v|].
  - rewrite andb_true_iff. split.
    + intros [H1 H2]. exists v.
      destruct (py_lt min_v v) as [[]|]; try done.
      by destruct (py_lt v max_v) as [[]|].
    + by intros (v' & [= <-] & -> & ->).
  - split; [done|]. by intros (v & ? & _).
Qed.

Lemma passes_elem_of (vs : list validator) (v : validator)
    (i : list (string * Value)) :
  v ∈ vs → passes vs i = true → call v i = true.
Proof.
  intros Hin H. unfold passes in H. rewrite forallb_forall in H.
  by apply H, list_elem_of_In.
Qed.

(** C1.  For an entry [attr: (min, max)] of [between_filter], the validator
    built for it is among those of the table, and a snapshot passes it
    exactly when the attribute resolves to a value [v] with [min < v] and
    [v < max], both strict; on integer bounds this is [min < z < max].  A
    snapshot whose value is [min] itself, or [max] itself, does not pass. *)
Theorem between_is_strict
    (regex_filter : option (list (string * Re.Pattern)))
    (equal_filter not_equal_filter above_filter under_filter
       : option (list (string * Value)))
    (between_filter : option (list (string * (Value * Value))))
    (attr : string) (min_v max_v : Value) (i : list (string * Value)) :
  (attr, (min_v, max_v)) ∈ items between_filter →
  let validate := partial_between attr min_v max_v in
  let vs := validators regex_filter equal_filter not_equal_filter
              above_filter under_filter between_filter in
  validate ∈ vs
  ∧ (passes vs i = true → call validate i = true)
  ∧ (call validate i = true
     ↔ ∃ v, get_nested_val (VDict i) attr = Found v
            ∧ py_lt min_v v = Some true ∧ py_lt v max_v = Some true)
  ∧ (∀ a b, min_v = VInt a → max_v = VInt b →
       (call validate i = true
        ↔ ∃ z, get_nested_val (VDict i) attr = Found (VInt z) ∧ a < z < b))
  ∧ (get_nested_val (VDict i) attr = Found min_v → call validate i = false)
  ∧ (get_nested_val (VDict i) attr = Found max_v → call validate i = false).
Proof.
  intros Hin validate vs.
  assert (Hvs : validate ∈ vs).
  { unfold vs, validators. rewrite !elem_of_app. do 5 right.
    apply (list_elem_of_fmap_2' _ _ (attr, (min_v, max_v))); done. }
  split_and!.
  - done.
  - by apply passes_elem_of.
  - apply check_between_spec.
  - intros a b -> ->. unfold validate. simpl. rewrite check_between_spec.
    split.
    + intros (v & Hv & (z & -> & Ha)%py_lt_VInt & Hb).
      exists z. split; [done|]. simpl in Hb. injection Hb as Hb%Z.ltb_lt. lia.
    + intros (z & Hv & Ha & Hb). exists (VInt z). split; [done|]. simpl.
      split; f_equal; by apply Z.ltb_lt.
  - intros Hv. apply not_true_is_false. unfold validate. simpl.
    rewrite check_between_spec. intros (v & Hv' & H & _).
    rewrite Hv in Hv'. injection Hv' as <-. by apply py_lt_irrefl in H.
  - intros Hv. apply not_true_is_false. unfold validate. simpl.
    rewrite check_between_spec. intros (v & Hv' & _ & H).
    rewrite Hv in Hv'. injection Hv' as <-. by apply py_lt_irrefl in H.
Qed.

End Table.


Example table_of_the_fixture :
  let os := Fixture.fx_psutil in
  let bi := Fixture.fx_builtins in
  let w := Fixture.w0 in
  (get_process_table (Some [("Name", "name"); ("RSS", "memory_info.rss")])
     None None None None None None w).1
  = Ret {| records :=
      [ [("Name", Found (VStr "svc-main")); ("RSS", Found (VInt 4096))];
        [("Name", Found (VStr "worker")); ("RSS", Found (VInt 2048))];
        [("Name", Found (VStr "Worker")); ("RSS", Found (VInt 1024))];
        [("Name", Found (VStr "svc-idle")); ("RSS", Found (VInt 128))];
        [("Name", Found (VStr "other")); ("RSS", Found (VInt 64))];
        [("Name", Found (VStr "websvc")); ("RSS", Found (VInt 32))] ] |}.
Proof. intros os bi w. vm_compute. reflexivity. Qed.

(** Three requested columns, the last of which cannot be resolved: a name
    is a string and has no field [first]. *)
Lemma rows_have_the_requested_columns_witness :
  let os := Fixture.fx_psutil in
  let bi := Fixture.fx_builtins in
  let w := Fixture.w0 in
  let columns :=
    Some [("Name", "name"); ("RSS", "memory_info.rss"); ("X", "name.first")] in
  ∃ procs,
    psutil_process_iter
      (attributes_to_fetch (default default_columns columns)
         None None None None None None) w = Ret procs
    ∧ (∀ proc e, proc ∈ procs → info proc = Raise e → caught e = true)
    ∧ NoDup (keys (default default_columns columns))
    ∧ ∃ data,
        get_process_table columns None None None None None None w
        = (Ret {| records := data |}, w)
        ∧ ∀ row, row ∈ data → keys row = ["Name"; "RSS"; "X"].
Proof.
  intros os bi w.
  intros columns.
  pose (attrs := attributes_to_fetch (default default_columns columns)
                   None None None None None None).
  pose (procs := match psutil_process_iter attrs w with
                 | Ret l => l
                 | Raise _ => []
                 end).
  assert (H1 : psutil_process_iter attrs w = Ret procs) by reflexivity.
  assert (H2 : ∀ proc e, proc ∈ procs → info proc = Raise e → caught e = true)
    by (intros proc e;
        apply (FixtureFacts.fx_info_caught attrs w procs _ _ H1)).
  assert (H3 : NoDup (keys (default default_columns columns))).
  { apply (bool_decide_unpack _). vm_compute. exact I. }
  exists procs. split; [exact H1|]. split; [exact H2|]. split; [exact H3|].
  destruct (rows_have_the_requested_columns columns None None None None
              None None w procs H1 H2 H3) as (data & Hrun & Hrows & _).
  exists data. split; [exact Hrun|].
  intros row Hrow. exact (proj1 (Hrows row Hrow)).
Defined.

Example unresolved_column_is_Absent :
  let os := Fixture.fx_psutil in
  let bi := Fixture.fx_builtins in
  let w := Fixture.w0 in
  (get_process_table
     (Some [("Name", "name"); ("X", "name.first"); ("Y", "memory_info.vms")])
     (Some [("name", Re.literal "main")]) None None None None None w).1
  = Ret {| records :=
      [ [("Name", Found (VStr "svc-main")); ("X", Absent); ("Y", Absent)] ] |}.
Proof. intros os bi w. vm_compute. reflexivity. Qed.

(** The filter combination of the specification on the fixture. *)
Lemma filters_combine_with_and_witness :
  let os := Fixture.fx_psutil in
  let bi := Fixture.fx_builtins in
  let w := Fixture.w0 in
  let regex_filter := Some [("name", Re.literal "svc")] in
  let above_filter := Some [("cpu_percent", VInt 50)] in
  ∃ procs,
    psutil_process_iter
      (attributes_to_fetch (default default_columns None) regex_filter
         None None above_filter None None) w = Ret procs
    ∧ (∀ proc e, proc ∈ procs → info proc = Raise e → caught e = true)
    ∧ ∃ keep,
        get_process_table None regex_filter None None above_filter None None w
        = (Ret {| records :=
                    make_row default_columns
                    <$> List.filter keep (snapshots procs) |}, w)
        ∧ ∀ i, keep i = true
               ↔ (∃ v, get_nested_val (VDict i) "name" = Found v
                       ∧ contains (py_str v) "svc")
                 ∧ (∃ z, get_nested_val (VDict i) "cpu_percent"
                         = Found (VInt z) ∧ 50 < z).
Proof.
  intros os bi w.
  intros regex_filter above_filter.
  pose (attrs := attributes_to_fetch (default default_columns None)
                   regex_filter None None above_filter None None).
  pose (procs := match psutil_process_iter attrs w with
                 | Ret l => l
                 | Raise _ => []
                 end).
  assert (H1 : psutil_process_iter attrs w = Ret procs) by reflexivity.
  assert (H2 : ∀ proc e, proc ∈ procs → info proc = Raise e → caught e = true)
    by (intros proc e;
        apply (FixtureFacts.fx_info_caught attrs w procs _ _ H1)).
  exists procs. split; [exact H1|]. split; [exact H2|].
  destruct (filters_combine_with_and None regex_filter None None above_filter
              None None w procs H1 H2) as (keep & Hrun & Hkeep & Hscenario).
  exists keep. split; [exact Hrun|].
  intros i. rewrite Hkeep. apply Hscenario.
Defined.

Example svc_above_50_on_the_fixture :
  let os := Fixture.fx_psutil in
  let bi := Fixture.fx_builtins in
  let w := Fixture.w0 in
  (get_process_table None (Some [("name", Re.literal "svc")]) None None
     (Some [("cpu_percent", VInt 50)]) None None w).1
  = Ret {| records :=
      [ [("PID", Found (VInt 100)); ("Name", Found (VStr "svc-main"));
         ("Status", Found (VStr "running"))];
        [("PID", Found (VInt 106)); ("Name", Found (VStr "websvc"));
         ("Status", Found (VStr "running"))] ] |}.
Proof. intros os bi w. vm_compute. reflexivity. Qed.

(** A [cpu_percent] equal to the upper bound, and one equal to the lower
    bound, are rejected. *)
Lemma between_is_strict_witness :
  let os := Fixture.fx_psutil in
  let bi := Fixture.fx_builtins in
  let w := Fixture.w0 in
  let between_filter := Some [("cpu_percent", (VInt 10, VInt 75))] in
  ("cpu_percent", (VInt 10, VInt 75)) ∈ items between_filter
  ∧ call (partial_between "cpu_percent" (VInt 10) (VInt 75))
      [("cpu_percent", VInt 75)] = false
  ∧ call (partial_between "cpu_percent" (VInt 10) (VInt 75))
      [("cpu_percent", VInt 10)] = false.
Proof.
  intros os bi w.
  intros between_filter.
  assert (Hin : ("cpu_percent", (VInt 10, VInt 75)) ∈ items between_filter)
    by apply list_elem_of_here.
  split; [exact Hin|]. split.
  - destruct (between_is_strict None None None None None between_filter
                "cpu_percent" (VInt 10) (VInt 75) [("cpu_percent", VInt 75)]
                Hin) as (_ & _ & _ & _ & _ & Hmax).
    apply Hmax. reflexivity.
  - destruct (between_is_strict None None None None None between_filter
                "cpu_percent" (VInt 10) (VInt 75) [("cpu_percent", VInt 10)]
                Hin) as (_ & _ & _ & _ & Hmin & _).
    apply Hmin. reflexivity.
Defined.

Example between_10_and_75_on_the_fixture :
  let os := Fixture.fx_psutil in
  let bi := Fixture.fx_builtins in
  let w := Fixture.w0 in
  (get_process_table (Some [("PID", "pid"); ("CPU", "cpu_percent")])
     None None None None None
     (Some [("cpu_percent", (VInt 10, VInt 75))]) w).1
  = Ret {| records :=
      [ [("PID", Found (VInt 101)); ("CPU", Found (VInt 60))];
        [("PID", Found (VInt 104)); ("CPU", Found (VInt 50))];
        [("PID", Found (VInt 106)); ("CPU", Found (VInt 51))] ] |}.
Proof. intros os bi w. vm_compute. reflexivity. Qed.

End TableFacts.

(** * Further properties of the code *)

(** ** network.py: ports *)
Module NetworkExtras.
Import Network.

Lemma find_elements_Some (f : Z → bool) (s : gset Z) (p : Z) :
  List.find f (elements s) = Some p → p ∈ s ∧ f p = true.
Proof.
  intros [Hin Hf]%List.find_some. split; [|done].
  by apply elem_of_elements, list_elem_of_In.
Qed.

Lemma StronglySorted_seqZ (m n : Z) : StronglySorted Z.lt (seqZ m n).
Proof.
  destruct (decide (n ≤ 0)) as [Hn|Hn]; [rewrite seqZ_nil by done; constructor|].
  rewrite <- (Z2Nat.id n) by lia. generalize (Z.to_nat n) as k. clear Hn.
  intros k. revert m. induction k as [|k IH]; intros m.
  - rewrite seqZ_nil by done. constructor.
  - rewrite seqZ_cons by lia. constructor.
    + replace (Z.pred (Z.of_nat (S k))) with (Z.of_nat k) by lia. apply IH.
    + apply Forall_forall. intros x Hx%elem_of_seqZ. lia.
Qed.

Lemma StronglySorted_filter_lt (P : Z → Prop) `{∀ x, Decision (P x)}
    (l : list Z) :
  StronglySorted Z.lt l → StronglySorted Z.lt (filter P l).
Proof.
  induction 1 as [|x l Hl IH Hx]; [constructor|].
  rewrite filter_cons. destruct (decide (P x)); [|done].
  constructor; [done|].
  apply Forall_forall. intros y [_ Hy]%list_elem_of_filter.
  rewrite Forall_forall in Hx. auto.
Qed.

Lemma StronglySorted_lt_NoDup (l : list Z) : StronglySorted Z.lt l → NoDup l.
Proof.
  induction 1 as [|x l Hl IH Hx]; constructor; [|done].
  intros Hin. rewrite Forall_forall in Hx. specialize (Hx x Hin). lia.
Qed.

Lemma StronglySorted_lt_ext (l1 l2 : list Z) :
  StronglySorted Z.lt l1 → StronglySorted Z.lt l2 →
  (∀ x, x ∈ l1 ↔ x ∈ l2) → l1 = l2.
Proof.
  intros H1 H2 Hext. apply (StronglySorted_unique_strong Z.lt); try done.
  - intros. lia.
  - apply NoDup_Permutation; auto using StronglySorted_lt_NoDup.
Qed.

Section Snapshot.

Context {os : Sockets}.

Lemma from_candidates_Some (a : option ports_arg) (p : Z) :
  from_candidates a = Some p → candidate a p ∧ try_bind p = true.
Proof.
  destruct a as [[q|l|]|]; unfold from_candidates; try done.
  - unfold _is_port_free. destruct (try_bind q) eqn:Hq; [|done].
    intros [= <-]. split; [constructor|done].
  - destruct (available_candidates l) as [|c cs] eqn:Hav; [done|].
    intros [Hin _]%NetworkFacts.py_min_spec. rewrite <- Hav in Hin.
    apply NetworkFacts.elem_of_available_candidates in Hin as [Hin Hfree].
    split; [by constructor|done].
Qed.

(** Whatever [get_localhost_minimum_free_port] returns can be bound, and is
    one of the ports the caller asked for or a port of the default range. *)
Theorem minimum_free_port_is_free (a : option ports_arg) (p : Z) :
  get_localhost_minimum_free_port a = Ret p →
  try_bind p = true ∧ (candidate a p ∨ 1024 ≤ p < 49151).
Proof.
  unfold get_localhost_minimum_free_port.
  destruct (from_candidates a) as [q|] eqn:Hc.
  - intros [= <-]. apply from_candidates_Some in Hc as [? ?]. auto.
  - destruct (List.find _ _) as [q|] eqn:Hf; [|done].
    intros [= <-]. apply find_elements_Some in Hf as [Hin Hfree].
    apply elem_of_ALL_PORTS_RANGE in Hin. auto.
Qed.


Lemma available_candidates_filter (l : list Value) :
  available_candidates (List.filter is_int l) = available_candidates l.
Proof.
  induction l as [|v l IH]; [done|].
  destruct v; simpl; rewrite ?IH; done.
Qed.

(** The elements of the sequence that are not integers play no part, and a
    sequence without integers, the empty one for instance, is the call
    without an argument. *)
Theorem non_integers_are_ignored (l : list Value) :
  get_localhost_minimum_free_port (Some (PortSeq l))
  = get_localhost_minimum_free_port (Some (PortSeq (List.filter is_int l)))
  ∧ (List.filter is_int l = [] →
     get_localhost_minimum_free_port (Some (PortSeq l))
     = get_localhost_minimum_free_port None).
Proof.
  assert (H : get_localhost_minimum_free_port (Some (PortSeq l))
    = get_localhost_minimum_free_port (Some (PortSeq (List.filter is_int l)))).
  { unfold get_localhost_minimum_free_port, from_candidates.
    rewrite available_candidates_filter. reflexivity. }
  split; [exact H|]. intros Hnil. rewrite H, Hnil.
  unfold get_localhost_minimum_free_port.
  cbn [from_candidates available_candidates]. reflexivity.
Qed.

(** The busy ports come out strictly ascending, hence each once, however
    many connections share a port. *)
Theorem busy_ports_strictly_ascending :
  StronglySorted Z.lt get_localhost_busy_ports
  ∧ NoDup get_localhost_busy_ports
  ∧ ∀ c a, c ∈ net_connections → _is_localhost c = true → laddr c = Some a →
           port a ∈ get_localhost_busy_ports.
Proof.
  unfold get_localhost_busy_ports. split_and!.
  - apply sorted_ascending.
  - apply NoDup_sorted.
  - intros c a Hc Hl Ha. apply elem_of_sorted.
    apply NetworkFacts.elem_of_busy_port_set. by exists c, a.
Qed.

(** The free ports are the default range 1024, 1025, ..., 49150 in this
    order with the busy ports taken out; without a localhost connection they
    are the whole range. *)
Theorem free_ports_are_the_range_without_busy :
  get_localhost_free_ports
  = filter (λ p, p ∉ get_localhost_busy_ports)
      (py_range _PORT_RANGE_START _PORT_RANGE_END)
  ∧ (List.filter _is_localhost net_connections = [] →
     get_localhost_free_ports = py_range _PORT_RANGE_START _PORT_RANGE_END).
Proof.
  assert (Heq : get_localhost_free_ports
    = filter (λ p, p ∉ get_localhost_busy_ports)
        (py_range _PORT_RANGE_START _PORT_RANGE_END)).
  { apply StronglySorted_lt_ext.
    - unfold get_localhost_free_ports. apply sorted_ascending.
    - apply StronglySorted_filter_lt, StronglySorted_seqZ.
    - intros p. rewrite list_elem_of_filter, elem_of_py_range.
      unfold get_localhost_free_ports.
      rewrite elem_of_sorted, elem_of_difference, elem_of_list_to_set.
      rewrite elem_of_ALL_PORTS_RANGE.
      unfold _PORT_RANGE_START, _PORT_RANGE_END. tauto. }
  split; [done|]. intros Hnone. rewrite Heq.
  assert (Hbusy : get_localhost_busy_ports = []).
  { apply elem_of_nil_inv. intros p.
    unfold get_localhost_busy_ports. rewrite elem_of_sorted.
    intros (c & a & Hc & Hl & _)%NetworkFacts.elem_of_busy_port_set.
    assert (Hin : c ∈ List.filter _is_localhost net_connections).
    { apply list_elem_of_In, List.filter_In. split; [|done].
      by apply list_elem_of_In. }
    rewrite Hnone in Hin. by apply elem_of_nil in Hin. }
  rewrite Hbusy. clear.
  induction (py_range _ _) as [|x l IH]; [done|].
  rewrite filter_cons. destruct (decide (x ∉ [])) as [_|Hx].
  - by rewrite IH.
  - exfalso. apply Hx. apply not_elem_of_nil.
Qed.

End Snapshot.

(** On the fixture, 9999 is returned for the candidates 80, 8080, 9999. *)
Lemma minimum_free_port_is_free_witness :
  let os := Fixture.fx_sockets in
  let a := Some (PortSeq [VInt 80; VInt 8080; VInt 9999]) in
  get_localhost_minimum_free_port a = Ret 9999
  ∧ try_bind 9999 = true ∧ (candidate a 9999 ∨ 1024 ≤ 9999 < 49151).
Proof.
  intros os a.
  assert (H : get_localhost_minimum_free_port a = Ret 9999) by reflexivity.
  split; [exact H|]. exact (minimum_free_port_is_free a 9999 H).
Defined.


End NetworkExtras.

(** ** network.py: the connections of each process *)
Module PidMapFacts.
Import Network.

Section Items.

Context {A : Type} `{EqDecision A} (item : addr → A).

Lemma elem_of_extend (l xs : list A) (x : A) :
  x ∈ extend l xs ↔ x ∈ l ∨ x ∈ xs.
Proof.
  unfold extend. revert l. induction xs as [|y xs IH]; intros l; simpl.
  - rewrite elem_of_nil. tauto.
  - rewrite IH, elem_of_cons. case_bool_decide as Hy.
    + split; [tauto|]. intros [?|[->|?]]; auto.
    + rewrite elem_of_app, list_elem_of_singleton. tauto.
Qed.

Lemma NoDup_extend (l xs : list A) : NoDup l → NoDup (extend l xs).
Proof.
  unfold extend. revert l. induction xs as [|y xs IH]; intros l Hl; simpl.
  - done.
  - apply IH. case_bool_decide as Hy; [done|].
    apply NoDup_app. split_and!; [done| |apply NoDup_singleton].
    intros x Hx ->%list_elem_of_singleton. done.
Qed.

Lemma extend_cons (l xs : list A) (x : A) :
  extend l (x :: xs)
  = extend (if bool_decide (x ∈ l) then l else l ++ [x]) xs.
Proof. reflexivity. Qed.

Lemma items_of_cons (p : Z) (c : sconn) (conns : list sconn) :
  items_of item p (c :: conns)
  = match pid c, laddr c with
    | Some q, Some a =>
        if bool_decide (q = p) then item a :: items_of item p conns
        else items_of item p conns
    | _, _ => items_of item p conns
    end.
Proof.
  unfold items_of. simpl.
  destruct (pid c) as [q|]; [|done]. destruct (laddr c) as [a|]; [|done].
  by case_bool_decide.
Qed.

Lemma elem_of_items_of (p : Z) (conns : list sconn) (x : A) :
  x ∈ items_of item p conns
  ↔ ∃ c a, c ∈ conns ∧ pid c = Some p ∧ laddr c = Some a ∧ item a = x.
Proof.
  unfold items_of. rewrite list_elem_of_omap. split.
  - intros (c & Hc & H'). exists c.
    destruct (pid c) as [q|]; [|done]. destruct (laddr c) as [a|]; [|done].
    case_bool_decide; [|done]. injection H' as <-. subst. by exists a.
  - intros (c & a & Hc & Hp & Ha & <-). exists c. split; [done|].
    rewrite Hp, Ha. by rewrite bool_decide_eq_true_2.
Qed.

(** What the loop leaves under the key [p]: the list it found there, with
    the items of the connections of [p] appended unless already there. *)
Lemma record_fold_lookup (conns : list sconn) (m : gmap Z (list A)) (p : Z) :
  fold_left (record_item item) conns m !! p
  = match items_of item p conns with
    | [] => m !! p
    | _ :: _ => Some (extend (default [] (m !! p)) (items_of item p conns))
    end.
Proof.
  revert m. induction conns as [|c conns IH]; intros m; [done|].
  cbn [fold_left]. rewrite IH, items_of_cons. unfold record_item.
  destruct (pid c) as [q|]; [|done]. destruct (laddr c) as [a|]; [|done].
  destruct (decide (q = p)) as [->|Hq].
  - rewrite (bool_decide_eq_true_2 (p = p)) by done. rewrite extend_cons.
    assert (Hnew : ∀ l, (<[p:=l]> m : gmap Z (list A)) !! p = Some l)
      by (intros; apply lookup_insert_eq).
    destruct (bool_decide (item a ∈ default [] (m !! p))); rewrite Hnew;
      simpl; by destruct (items_of item p conns).
  - rewrite (bool_decide_eq_false_2 (q = p)) by done.
    assert (Hold : ∀ l, (<[q:=l]> m : gmap Z (list A)) !! p = m !! p)
      by (intros; by apply lookup_insert_ne).
    destruct (bool_decide (item a ∈ default [] (m !! q))); by rewrite Hold.
Qed.

End Items.

Lemma items_of_fmap {A : Type} (item : addr → A) (p : Z) (conns : list sconn) :
  items_of item p conns = item <$> items_of (λ a, a) p conns.
Proof.
  induction conns as [|c conns IH]; [done|].
  rewrite (items_of_cons item), (items_of_cons (λ a, a)).
  destruct (pid c) as [q|]; [|done]. destruct (laddr c) as [a|]; [|done].
  destruct (bool_decide (q = p)); [|done]. by rewrite fmap_cons, IH.
Qed.


Section Snapshot.

Context {os : Sockets}.

Lemma elem_of_owned (c : sconn) :
  c ∈ owned_localhost_connections
  ↔ c ∈ net_connections ∧ has_pid c = true ∧ _is_localhost c = true.
Proof.
  unfold owned_localhost_connections.
  rewrite !list_elem_of_In, List.filter_In, andb_true_iff. tauto.
Qed.

Lemma has_pid_Some (c : sconn) (p : Z) :
  pid c = Some p → (has_pid c = true ↔ p ≠ 0).
Proof.
  intros Hp. unfold has_pid. rewrite Hp, negb_true_iff, Z.eqb_neq. done.
Qed.

(** The list kept for a pid once all connections have been recorded. *)
Lemma pid_map_lookup {A : Type} `{EqDecision A} (item : addr → A) (p : Z) :
  fold_left (record_item item) owned_localhost_connections ∅ !! p
  = match items_of item p owned_localhost_connections with
    | [] => None
    | _ :: _ => Some (extend [] (items_of item p owned_localhost_connections))
    end.
Proof. rewrite record_fold_lookup. by rewrite lookup_empty. Qed.

Lemma pid_map_entry {A : Type} `{EqDecision A} (item : addr → A) (p : Z)
    (l : list A) :
  fold_left (record_item item) owned_localhost_connections ∅ !! p = Some l →
  p ≠ 0 ∧ l ≠ [] ∧ NoDup l
  ∧ ∀ x, x ∈ l ↔ ∃ c a, c ∈ net_connections ∧ pid c = Some p
                        ∧ _is_localhost c = true ∧ laddr c = Some a
                        ∧ item a = x.
Proof.
  rewrite pid_map_lookup. intros Hlook.
  assert (Hl : ∃ x0, x0 ∈ items_of item p owned_localhost_connections
                     ∧ extend [] (items_of item p owned_localhost_connections)
                       = l).
  { destruct (items_of item p owned_localhost_connections) as [|x0 xs];
      [done|].
    exists x0. split; [apply list_elem_of_here|].
    injection Hlook as Hlook. exact Hlook. }
  clear Hlook. destruct Hl as (x0 & H0 & Hl).
  assert (Hmem : ∀ x, x ∈ l
                      ↔ x ∈ items_of item p owned_localhost_connections).
  { intros x. rewrite <- Hl, elem_of_extend, elem_of_nil. tauto. }
  assert (Hnd : NoDup l) by (rewrite <- Hl; apply NoDup_extend, NoDup_nil_2).
  clear Hl.
  split_and!.
  - apply elem_of_items_of in H0 as (c & a & Hc & Hp & _).
    apply elem_of_owned in Hc as (_ & Hpid & _).
    by apply (has_pid_Some c p Hp).
  - intros Hnil. apply Hmem in H0. rewrite Hnil in H0.
    by apply elem_of_nil in H0.
  - done.
  - intros x. rewrite Hmem, elem_of_items_of. split.
    + intros (c & a & (Hc & _ & Hl)%elem_of_owned & Hp & Ha & Hx).
      by exists c, a.
    + intros (c & a & Hc & Hp & Hl & Ha & Hx). exists c, a.
      split; [|done]. apply elem_of_owned. split_and!; try done.
      apply elem_of_items_of in H0 as (c0 & a0 & Hc0 & Hp0 & _).
      apply elem_of_owned in Hc0 as (_ & Hpid0 & _).
      apply (has_pid_Some c p Hp). by apply (has_pid_Some c0 p Hp0).
Qed.

Lemma pid_map_is_Some {A : Type} `{EqDecision A} (item : addr → A) (p : Z) :
  is_Some (fold_left (record_item item) owned_localhost_connections ∅ !! p)
  ↔ items_of (λ a, a) p owned_localhost_connections ≠ [].
Proof.
  rewrite pid_map_lookup, (items_of_fmap item).
  destruct (items_of (λ a, a) p owned_localhost_connections); simpl.
  - split; [by intros [? ?]|done].
  - split; [done|]. intros _. by eexists.
Qed.

(** [get_localhost_pids_with_ports] maps a pid to the local ports of its
    localhost connections: every list is free of duplicates and not empty,
    process 0 and connections without a known owner are left out. *)
Theorem pids_with_ports_spec :
  (∀ p l, get_localhost_pids_with_ports !! p = Some l →
          p ≠ 0 ∧ l ≠ [] ∧ NoDup l)
  ∧ (∀ p x, (∃ l, get_localhost_pids_with_ports !! p = Some l ∧ x ∈ l)
            ↔ p ≠ 0 ∧ ∃ c a, c ∈ net_connections ∧ pid c = Some p
                             ∧ _is_localhost c = true ∧ laddr c = Some a
                             ∧ port a = x).
Proof.
  unfold get_localhost_pids_with_ports. split.
  - intros p l (? & ? & ? & _)%pid_map_entry. done.
  - intros p x. split.
    + intros (l & (? & _ & _ & Hmem)%pid_map_entry & Hx).
      split; [done|]. by apply Hmem.
    + intros (Hp & c & a & Hc & Hpid & Hl & Ha & Hx).
      assert (Hsome : is_Some (fold_left (record_item port)
                                 owned_localhost_connections ∅ !! p)).
      { apply pid_map_is_Some. intros Hnil.
        assert (Hin : a ∈ items_of (λ a, a) p owned_localhost_connections).
        { apply elem_of_items_of. exists c, a. split_and!; try done.
          apply elem_of_owned. split_and!; try done.
          by apply (has_pid_Some c p Hpid). }
        rewrite Hnil in Hin. by apply elem_of_nil in Hin. }
      destruct Hsome as [l Hl']. exists l. split; [done|].
      apply pid_map_entry in Hl' as (_ & _ & _ & Hmem).
      apply Hmem. by exists c, a.
Qed.

(** [get_localhost_pids_with_addresses] maps a pid to the addresses
    ["ip:port"] of its localhost connections, each once. *)
Theorem pids_with_addresses_spec :
  (∀ p l, get_localhost_pids_with_addresses !! p = Some l →
          p ≠ 0 ∧ l ≠ [] ∧ NoDup l)
  ∧ (∀ p l s, get_localhost_pids_with_addresses !! p = Some l →
       (s ∈ l ↔ ∃ c a, c ∈ net_connections ∧ pid c = Some p
                       ∧ _is_localhost c = true ∧ laddr c = Some a
                       ∧ s = ip a +:+ ":" +:+ pretty (port a))).
Proof.
  unfold get_localhost_pids_with_addresses. split.
  - intros p l (? & ? & ? & _)%pid_map_entry. done.
  - intros p l s (_ & _ & _ & Hmem)%pid_map_entry. rewrite Hmem.
    unfold address_string. split.
    + intros (c & a & ? & ? & ? & ? & <-). by exists c, a.
    + intros (c & a & ? & ? & ? & ? & ->). by exists c, a.
Qed.

(** The two maps have the same pids, every port listed for a pid is the port
    of one of the addresses listed for it, and is one of the busy ports. *)
Theorem pid_maps_agree :
  dom get_localhost_pids_with_ports = dom get_localhost_pids_with_addresses
  ∧ (∀ p lp x, get_localhost_pids_with_ports !! p = Some lp → x ∈ lp →
       ∃ la i, get_localhost_pids_with_addresses !! p = Some la
               ∧ i ∈ _LOCALHOST_IPS ∧ i +:+ ":" +:+ pretty x ∈ la)
  ∧ (∀ p lp x, get_localhost_pids_with_ports !! p = Some lp → x ∈ lp →
       x ∈ get_localhost_busy_ports).
Proof.
  unfold get_localhost_pids_with_ports, get_localhost_pids_with_addresses.
  split_and!.
  - apply set_eq. intros p. by rewrite !elem_of_dom, !pid_map_is_Some.
  - intros p lp x Hlp Hx.
    assert (Hsome : is_Some (fold_left (record_item address_string)
                               owned_localhost_connections ∅ !! p)).
    { apply pid_map_is_Some. apply (pid_map_is_Some port). by eexists. }
    destruct Hsome as [la Hla]. exists la.
    apply pid_map_entry in Hlp as (_ & _ & _ & Hmem).
    apply Hmem in Hx as (c & a & Hc & Hp & Hl & Ha & <-).
    exists (ip a). split; [done|]. split.
    + unfold _is_localhost in Hl. rewrite Ha in Hl.
      by apply bool_decide_eq_true in Hl.
    + apply pid_map_entry in Hla as (_ & _ & _ & Hmem').
      apply Hmem'. by exists c, a.
  - intros p lp x Hlp Hx.
    apply pid_map_entry in Hlp as (_ & _ & _ & Hmem).
    apply Hmem in Hx as (c & a & Hc & Hp & Hl & Ha & <-).
    unfold get_localhost_busy_ports. apply elem_of_sorted.
    apply NetworkFacts.elem_of_busy_port_set. by exists c, a.
Qed.

End Snapshot.

Example pids_with_ports_on_the_fixture :
  @get_localhost_pids_with_ports Fixture.fx_sockets !! 100 = Some [8080]
  ∧ @get_localhost_pids_with_ports Fixture.fx_sockets !! 1 = Some [80]
  ∧ @get_localhost_pids_with_ports Fixture.fx_sockets !! 105 = None
  ∧ @get_localhost_pids_with_addresses Fixture.fx_sockets !! 100
    = Some ["127.0.0.1:8080"].
Proof. vm_compute. done. Qed.

End PidMapFacts.

(** ** process.py: termination, further *)
Module LifecycleExtras.
Import Process MonadFacts.
Local Open Scope monad_scope.

Section Lifecycle.

Context {Handle World : Type} {psutil : Psutil Handle World}.

(** One turn of the loop of lines 45-52 when what the signal raises at this
    point, if anything, is caught. *)
Lemma signal_attempt_at (force : bool) (p : Handle) (w : World) :
  (∀ e, (signal force p w).1 = Raise e → caught e = true) →
  try_except (signal force p) caught (ret tt) w = (Ret tt, (signal force p w).2).
Proof.
  intros Hsig. destruct (signal force p w) as [[[]|e] w'] eqn:Hp.
  - by rewrite (try_except_Ret _ _ _ _ _ _ Hp).
  - rewrite (try_except_Raise _ _ _ _ _ _ Hp).
    by rewrite (Hsig e eq_refl).
Qed.

(** The loop ends normally or with an exception that is not caught. *)
Lemma signal_loop_outcome (force : bool) (plan : list Handle) (w : World) :
  let r := for_each plan (λ p, try_except (signal force p) caught (ret tt)) w in
  r.1 = Ret tt ∨ ∃ e, r.1 = Raise e ∧ caught e = false.
Proof.
  revert w. induction plan as [|p plan IH]; intros w; [by left|].
  cbn [for_each].
  destruct (signal force p w) as [[[]|e] w'] eqn:Hp.
  - rewrite (bind_Ret _ _ w tt w') by (by apply try_except_Ret). apply IH.
  - destruct (caught e) eqn:He.
    + rewrite (bind_Ret _ _ w tt w').
      * apply IH.
      * rewrite (try_except_Raise _ _ _ _ _ _ Hp). by rewrite He.
    + right. exists e. split; [|done].
      rewrite (bind_Raise _ _ w e w'); [done|].
      rewrite (try_except_Raise _ _ _ _ _ _ Hp). by rewrite He.
Qed.

(** Lines 37-43 give the list of the processes to signal, or raise an
    exception that is not caught. *)
Lemma procs_to_kill_outcome (proc : Handle) (tree : bool) (w : World) :
  let r := (if tree then
              try_except
                (descendants <- read (proc_children proc) ;;
                 ret (proc :: descendants))
                caught (ret [proc])
            else ret [proc]) w in
  (∃ l, r = (Ret l, w)) ∨ ∃ e, r = (Raise e, w) ∧ caught e = false.
Proof.
  destruct tree; [|left; by eexists].
  destruct (proc_children proc w) as [ds|e] eqn:Hc.
  - left. exists (proc :: ds). apply try_except_Ret.
    by rewrite (bind_Ret _ _ w ds w) by (unfold read; by rewrite Hc).
  - cbn zeta.
    erewrite try_except_Raise by (apply bind_Raise; unfold read; by rewrite Hc).
    destruct (caught e) eqn:He; [left; by eexists|right; by exists e].
Qed.

Lemma kill_proc_obj_outcome (proc : Handle) (force tree : bool) (w : World) :
  (_kill_proc_obj proc force tree w).1 = Ret true
  ∨ ∃ e, (_kill_proc_obj proc force tree w).1 = Raise e ∧ caught e = false.
Proof.
  unfold _kill_proc_obj.
  destruct (procs_to_kill_outcome proc tree w) as [[l Hl]|(e & He & Hc)].
  - pose proof (signal_loop_outcome force l w) as Hloop. cbn zeta in Hloop.
    destruct (for_each l _ w) as [[[]|e] w'] eqn:Hrun.
    + left. erewrite try_except_Ret; [done|].
      rewrite (bind_Ret _ _ _ _ _ Hl). by rewrite (bind_Ret _ _ _ _ _ Hrun).
    + destruct Hloop as [[=]|(e' & [= <-] & Hc)].
      right. exists e. split; [|done].
      erewrite try_except_Raise.
      * by rewrite Hc.
      * rewrite (bind_Ret _ _ _ _ _ Hl). by apply bind_Raise.
  - right. exists e. split; [|done].
    erewrite try_except_Raise; [by rewrite Hc|]. by apply bind_Raise.
Qed.

(** [kill_process_by_pid] returns [False] in one case only, that
    [psutil.Process(pid)] raises [NoSuchProcess]; any other exception of the
    lookup, [AccessDenied] for instance, reaches the caller with the system
    untouched.  [_kill_proc_obj] never returns [False]: its last handler is
    never entered. *)
Theorem kill_by_pid_False_only_for_unknown_pid (pid : Z) (force tree : bool)
    (w : World) :
  ((kill_process_by_pid pid force tree w).1 = Ret false
   ↔ psutil_Process pid w = Raise NoSuchProcess)
  ∧ (∀ e, psutil_Process pid w = Raise e → e ≠ NoSuchProcess →
       kill_process_by_pid pid force tree w = (Raise e, w))
  ∧ (∀ proc, (_kill_proc_obj proc force tree w).1 ≠ Ret false).
Proof.
  assert (Hobj : ∀ proc w', (_kill_proc_obj proc force tree w').1 ≠ Ret false).
  { intros proc w'.
    destruct (kill_proc_obj_outcome proc force tree w')
      as [->|(e & -> & _)]; done. }
  split_and!.
  - unfold kill_process_by_pid. split.
    + destruct (psutil_Process pid w) as [h|e] eqn:Hp.
      * destruct (_kill_proc_obj h force tree w) as [[b|e] w'] eqn:Hk.
        -- erewrite try_except_Ret
             by (rewrite (bind_Ret _ _ w h w) by (unfold read; by rewrite Hp);
                 exact Hk).
           simpl. intros [= ->]. exfalso.
           apply (Hobj h w). by rewrite Hk.
        -- erewrite try_except_Raise
             by (rewrite (bind_Ret _ _ w h w) by (unfold read; by rewrite Hp);
                 exact Hk).
           destruct (kill_proc_obj_outcome h force tree w)
             as [H1|(e' & H1 & Hc)]; rewrite Hk in H1; simpl in H1; [done|].
           injection H1 as <-. by destruct e.
      * erewrite try_except_Raise
          by (apply bind_Raise; unfold read; by rewrite Hp).
        by destruct e.
    + intros Hp.
      erewrite try_except_Raise
        by (apply bind_Raise; unfold read; by rewrite Hp).
      done.
  - intros e Hp Hne. unfold kill_process_by_pid.
    erewrite try_except_Raise
      by (apply bind_Raise; unfold read; by rewrite Hp).
    by destruct e.
  - intros proc. apply Hobj.
Qed.

Lemma signal_loop_stops (force : bool) (l1 l2 : list Handle) (p : Handle)
    (w : World) (e : exn) :
  (∀ q w' e', q ∈ l1 → (signal force q w').1 = Raise e' → caught e' = true) →
  (signal force p (deliver force l1 w)).1 = Raise e →
  caught e = false →
  for_each (l1 ++ p :: l2) (λ p, try_except (signal force p) caught (ret tt)) w
  = (Raise e, deliver force (l1 ++ [p]) w).
Proof.
  revert w. induction l1 as [|q l1 IH]; intros w Hl1 Hp He.
  - cbn [app for_each]. apply bind_Raise.
    unfold deliver in *. simpl in *.
    destruct (signal force p w) as [o w'] eqn:Hs. simpl in Hp. subst o.
    rewrite (try_except_Raise _ _ _ _ _ _ Hs). by rewrite He.
  - cbn [app for_each].
    rewrite (bind_Ret _ _ w tt (signal force q w).2).
    + rewrite IH; [done| |done..].
      intros q' w' e' Hq'. apply Hl1. by apply list_elem_of_further.
    + apply signal_attempt_at. intros e'. apply Hl1, list_elem_of_here.
Qed.

(** An exception of a signal that is not caught ends the loop: the members
    of the plan after the one that raised receive no signal, and the
    exception reaches the caller. *)
Theorem uncaught_signal_error_stops_the_plan (proc : Handle)
    (force tree : bool) (w : World) (l1 l2 : list Handle) (p : Handle)
    (e : exn) :
  kill_plan proc tree w = l1 ++ p :: l2 →
  (∀ e', proc_children proc w = Raise e' → caught e' = true) →
  (∀ q w' e', q ∈ l1 → (signal force q w').1 = Raise e' → caught e' = true) →
  (signal force p (deliver force l1 w)).1 = Raise e →
  caught e = false →
  _kill_proc_obj proc force tree w = (Raise e, deliver force (l1 ++ [p]) w).
Proof.
  intros Hplan Hkids Hl1 Hp He. unfold _kill_proc_obj.
  erewrite try_except_Raise.
  - by rewrite He.
  - rewrite (bind_Ret _ _ _ _ _
               (LifecycleFacts.procs_to_kill_spec proc tree w Hkids)).
    rewrite Hplan. apply bind_Raise. by apply signal_loop_stops.
Qed.








End Lifecycle.

Lemma lower_ascii_idemp (c : ascii) : lower_ascii (lower_ascii c) = lower_ascii c.
Proof. by destruct c as [[] [] [] [] [] [] [] []]. Qed.

Lemma lower_idemp (s : string) : lower (lower s) = lower s.
Proof.
  induction s as [|c s IH]; [done|]. simpl. by rewrite lower_ascii_idemp, IH.
Qed.

(** Without case sensitivity the case of the requested name plays no part:
    the name and its lower-case form give the same call, for both functions
    that take a name. *)
Theorem requested_name_case_is_irrelevant {Handle World : Type}
    {psutil : Psutil Handle World} (name : string) (force tree : bool) :
  kill_processes_by_name (lower name) force tree false
  = kill_processes_by_name name force tree false
  ∧ check_process_exists_by_name (lower name) false
    = check_process_exists_by_name name false.
Proof.
  unfold kill_processes_by_name, check_process_exists_by_name.
  by rewrite lower_idemp.
Qed.

Section Existence.

Context {Handle World : Type} {psutil : Psutil Handle World}.


Lemma any_of_first_answer {A : Type} (l1 l2 : list A) (x : A)
    (f : A → M World bool) (w : World) :
  (∀ q, q ∈ l1 → f q w = (Ret false, w)) →
  (f x w = (Ret true, w) → any_of (l1 ++ x :: l2) f w = (Ret true, w))
  ∧ (∀ e, f x w = (Raise e, w) → any_of (l1 ++ x :: l2) f w = (Raise e, w)).
Proof.
  induction l1 as [|q l1 IH]; intros Hl1.
  - cbn [app any_of]. split.
    + intros Hx. by rewrite (bind_Ret _ _ _ _ _ Hx).
    + intros e Hx. by apply bind_Raise.
  - cbn [app any_of].
    rewrite (bind_Ret _ _ w false w) by apply Hl1, list_elem_of_here.
    apply IH. eauto using list_elem_of_further.
Qed.

(** The two tests of lines 244 and 246 on a process whose [info] can be
    read. *)
Lemma exact_test (name : string) (proc : Proc Handle) (w : World) :
  readable_name proc →
  (info <- of_outcome (info proc) ;;
   p_name <- getitem info "name" ;;
   ret (py_eq p_name (VStr name))) w
  = (Ret (has_name true name proc), w).
Proof.
  intros (i & Hi & Hn). unfold has_name, bind, of_outcome. rewrite Hi.
  cbn beta iota. unfold getitem.
  destruct Hn as [[n Hn]|Hn]; rewrite Hn; done.
Qed.

Lemma loose_test (name : string) (proc : Proc Handle) (w : World) :
  readable_name proc →
  (info <- of_outcome (info proc) ;;
   p_name <- getitem info "name" ;;
   if py_truthy p_name then
     info' <- of_outcome (Process.info proc) ;;
     p_name' <- getitem info' "name" ;;
     l <- str_lower p_name' ;;
     ret (String.eqb l (lower name))
   else ret false) w
  = (Ret (has_name false name proc), w).
Proof.
  intros (i & Hi & Hn). unfold has_name, bind, of_outcome. rewrite Hi.
  cbn beta iota. unfold getitem.
  destruct Hn as [[n Hn]|Hn]; rewrite Hn; [|done].
  unfold ret at 1. rewrite LifecycleFacts.py_truthy_VStr.
  destruct (String.eqb n ""); [done|]. simpl. by rewrite ?Hn.
Qed.



(** The search is decided by the first process that has the name or whose
    [info] cannot be read: in the first case the answer is [True] whatever
    comes after; in the second the exception reaches the caller, also when
    it is [NoSuchProcess] or [AccessDenied], which this function does not
    catch. *)
Theorem exists_by_name_stops_at_first_answer (name : string)
    (case_sensitive : bool) (w : World) (l1 l2 : list (Proc Handle))
    (p : Proc Handle) :
  psutil_process_iter {[ "name" ]} w = Ret (l1 ++ p :: l2) →
  (∀ q, q ∈ l1 → readable_name q ∧ has_name case_sensitive name q = false) →
  (readable_name p → has_name case_sensitive name p = true →
   check_process_exists_by_name name case_sensitive w = (Ret true, w))
  ∧ (∀ e, info p = Raise e →
       check_process_exists_by_name name case_sensitive w = (Raise e, w)).
Proof.
  intros Hiter Hl1. unfold check_process_exists_by_name.
  rewrite (bind_Ret _ _ w (l1 ++ p :: l2) w)
    by (unfold read; by rewrite Hiter).
  destruct case_sensitive.
  - edestruct (any_of_first_answer l1 l2 p) as [Htrue Hraise];
      [|split; [intros Hp Hn; apply Htrue|intros e He; apply Hraise]].
    + intros q Hq. destruct (Hl1 q Hq) as [Hr Hn].
      rewrite (exact_test name q w Hr). by rewrite Hn.
    + rewrite (exact_test name p w Hp). by rewrite Hn.
    + apply bind_Raise. unfold of_outcome. by rewrite He.
  - edestruct (any_of_first_answer l1 l2 p) as [Htrue Hraise];
      [|split; [intros Hp Hn; apply Htrue|intros e He; apply Hraise]].
    + intros q Hq. destruct (Hl1 q Hq) as [Hr Hn].
      rewrite (loose_test name q w Hr). by rewrite Hn.
    + rewrite (loose_test name p w Hp). by rewrite Hn.
    + apply bind_Raise. unfold of_outcome. by rewrite He.
Qed.

End Existence.

(** On the faulty system the plan of process 5 is 5, 6, 7, 8 and the signal
    to 7 raises a [RuntimeError]: 5 and 6 are signalled, 8 is not. *)
Lemma uncaught_signal_error_stops_the_plan_witness :
  let os := Faulty.fy_psutil in
  let w : list Z := [] in
  kill_plan 5 true w = [5; 6] ++ 7 :: [8]
  ∧ (∀ e', proc_children 5 w = Raise e' → caught e' = true)
  ∧ (∀ q w' e', q ∈ [5; 6] → (signal false q w').1 = Raise e' →
       caught e' = true)
  ∧ (signal false 7 (deliver false [5; 6] w)).1 = Raise (RuntimeError "boom")
  ∧ caught (RuntimeError "boom") = false
  ∧ _kill_proc_obj 5 false true w = (Raise (RuntimeError "boom"), [5; 6]).
Proof.
  intros os w.
  assert (H1 : kill_plan 5 true w = [5; 6] ++ 7 :: [8]) by reflexivity.
  assert (H2 : ∀ e', proc_children 5 w = Raise e' → caught e' = true)
    by (intros e'; discriminate).
  assert (H3 : ∀ q w' e', q ∈ [5; 6] → (signal false q w').1 = Raise e' →
                 caught e' = true).
  { intros q w' e' Hq.
    repeat (apply elem_of_cons in Hq as [->|Hq]);
      [discriminate..|by apply elem_of_nil in Hq]. }
  assert (H4 : (signal false 7 (deliver false [5; 6] w)).1
               = Raise (RuntimeError "boom")) by reflexivity.
  assert (H5 : caught (RuntimeError "boom") = false) by reflexivity.
  do 5 (split; [assumption|]).
  exact (uncaught_signal_error_stops_the_plan 5 false true w [5; 6] [8] 7
           (RuntimeError "boom") H1 H2 H3 H4 H5).
Defined.



Example worker_targets_on_the_fixture :
  let os := Fixture.fx_psutil in
  let w := Fixture.w0 in
  (kill_processes_by_name "Worker" false false true w).1 = Ret [VInt 102]
  ∧ (kill_processes_by_name "Worker" false false false w).1
    = Ret [VInt 101; VInt 102].
Proof. intros os w. by vm_compute. Qed.



Example other_exists_on_the_fixture :
  let os := Fixture.fx_psutil in
  check_process_exists_by_name "OTHER" false Faulty.w_running
  = (Ret true, Faulty.w_running)
  ∧ check_process_exists_by_name "OTHER" true Faulty.w_running
    = (Ret false, Faulty.w_running)
  ∧ check_process_exists_by_name "other" true Fixture.w0
    = (Raise AccessDenied, Fixture.w0).
Proof. intros os. by vm_compute. Qed.

(** On the faulty system the first process is named ["alpha"], and the
    [info] of the second cannot be read: the search for ["alpha"] answers
    [True] without reading it, the search for ["beta"], the name of the third
    process, raises. *)
Lemma exists_by_name_stops_at_first_answer_witness :
  let os := Faulty.fy_psutil in
  let w : list Z := [] in
  let p1 := {| handle := 1;
               info := Ret [("pid", VInt 1); ("name", VStr "alpha")] |} in
  let p2 := {| handle := 2; info := Raise (KeyError "info") |} in
  let p3 := {| handle := 3;
               info := Ret [("pid", VInt 3); ("name", VStr "beta")] |} in
  psutil_process_iter {[ "name" ]} w = Ret ([] ++ p1 :: [p2; p3])
  ∧ psutil_process_iter {[ "name" ]} w = Ret ([p1] ++ p2 :: [p3])
  ∧ (∀ q, q ∈ [p1] → readable_name q ∧ has_name true "beta" q = false)
  ∧ readable_name p1
  ∧ has_name true "alpha" p1 = true
  ∧ check_process_exists_by_name "alpha" true w = (Ret true, w)
  ∧ check_process_exists_by_name "beta" true w = (Raise (KeyError "info"), w).
Proof.
  intros os w p1 p2 p3.
  assert (H1 : psutil_process_iter {[ "name" ]} w = Ret ([] ++ p1 :: [p2; p3]))
    by reflexivity.
  assert (H2 : psutil_process_iter {[ "name" ]} w = Ret ([p1] ++ p2 :: [p3]))
    by reflexivity.
  assert (H3 : readable_name p1)
    by (eexists; split; [reflexivity|left; eexists; reflexivity]).
  assert (H4 : ∀ q, q ∈ [p1] → readable_name q ∧ has_name true "beta" q = false).
  { intros q Hq. apply elem_of_cons in Hq as [->|Hq];
      [by split|by apply elem_of_nil in Hq]. }
  assert (H5 : has_name true "alpha" p1 = true) by reflexivity.
  assert (H0 : ∀ q : Proc Z, q ∈ [] → readable_name q ∧ has_name true "alpha" q = false)
    by (intros q Hq; by apply elem_of_nil in Hq).
  do 2 (split; [assumption|]). split; [exact H4|]. do 2 (split; [assumption|]).
  split.
  - exact (proj1 (exists_by_name_stops_at_first_answer "alpha" true w
                    [] [p2; p3] p1 H1 H0) H3 H5).
  - exact (proj2 (exists_by_name_stops_at_first_answer "beta" true w
                    [p1] [p3] p2 H2 H4) (KeyError "info") eq_refl).
Defined.

Example lookup_errors_on_the_faulty_system :
  let os := Faulty.fy_psutil in
  kill_process_by_pid 13 false true [] = (Raise AccessDenied, [])
  ∧ kill_process_by_pid 5 false true []
    = (Raise (RuntimeError "boom"), [5; 6]).
Proof. intros os. by vm_compute. Qed.

End LifecycleExtras.

(** ** process.py: the process table, further *)
Module TableExtras.
Import Process MonadFacts.
Local Open Scope monad_scope.

Lemma first_segment_cons (c : ascii) (t : string) :
  first_segment (String c t)
  = if Ascii.eqb c "." then EmptyString else String c (first_segment t).
Proof.
  unfold first_segment. simpl. destruct (split_on "." t).
  by destruct (Ascii.eqb c ".").
Qed.

Lemma first_segment_no_dot (key : string) : ¬ contains (first_segment key) ".".
Proof.
  induction key as [|c t IH]; intros (pre & post & Heq).
  - by destruct pre.
  - rewrite first_segment_cons in Heq.
    destruct (Ascii.eqb_spec c ".") as [->|Hc]; [by destruct pre|].
    destruct pre as [|a pre]; simpl in Heq.
    + injection Heq as -> _. done.
    + injection Heq as _ Heq. apply IH. by exists pre, post.
Qed.

Lemma first_segment_prefix (key : string) :
  key = first_segment key ∨ ∃ rest, key = first_segment key +:+ "." +:+ rest.
Proof.
  induction key as [|c t IH]; [by left|].
  rewrite first_segment_cons.
  destruct (Ascii.eqb_spec c ".") as [->|Hc]; [right; by exists t|].
  destruct IH as [IH|[rest IH]].
  - left. by rewrite <- IH.
  - right. exists rest. rewrite ReFacts.append_cons. by rewrite <- IH.
Qed.

Lemma first_segment_dotless (key : string) :
  ¬ contains key "." → first_segment key = key.
Proof.
  intros Hno. destruct (first_segment_prefix key) as [<-|[rest Hrest]]; [done|].
  exfalso. apply Hno. by exists (first_segment key), rest.
Qed.

Section Table.

Context {Handle World : Type} {psutil : Psutil Handle World}.
Context {builtins : Builtins}.

(** The attributes asked of psutil are the first segments of the paths of
    the columns and of the keys of the six filters, and nothing else; none
    of them contains a dot, and a path without a dot is asked for as it
    is. *)
Theorem attributes_to_fetch_spec (columns : list (string * string))
    (regex_filter : option (list (string * Re.Pattern)))
    (equal_filter not_equal_filter above_filter under_filter
       : option (list (string * Value)))
    (between_filter : option (list (string * (Value * Value)))) :
  let attrs :=
    attributes_to_fetch columns regex_filter equal_filter not_equal_filter
      above_filter under_filter between_filter in
  (∀ a, a ∈ attrs
        ↔ ∃ path, first_segment path = a
                  ∧ (path ∈ columns.*2
                     ∨ path ∈ keys (items regex_filter)
                     ∨ path ∈ keys (items equal_filter)
                     ∨ path ∈ keys (items not_equal_filter)
                     ∨ path ∈ keys (items above_filter)
                     ∨ path ∈ keys (items under_filter)
                     ∨ path ∈ keys (items between_filter)))
  ∧ (∀ a, a ∈ attrs → ¬ contains a ".")
  ∧ (∀ path, ¬ contains path "." → first_segment path = path).
Proof.
  intros attrs.
  assert (Hmem : ∀ a, a ∈ attrs
    ↔ ∃ path, first_segment path = a
              ∧ (path ∈ columns.*2
                 ∨ path ∈ keys (items regex_filter)
                 ∨ path ∈ keys (items equal_filter)
                 ∨ path ∈ keys (items not_equal_filter)
                 ∨ path ∈ keys (items above_filter)
                 ∨ path ∈ keys (items under_filter)
                 ∨ path ∈ keys (items between_filter))).
  { intros a. unfold attrs, attributes_to_fetch.
    rewrite !elem_of_union, !elem_of_list_to_set.
    rewrite !(list_elem_of_fmap first_segment). split.
    - intros [[[[[[H|H]|H]|H]|H]|H]|H]; destruct H as (path & -> & H);
        exists path; tauto.
    - intros (path & <- & H).
      destruct H as [H|[H|[H|[H|[H|[H|H]]]]]].
      + do 6 left. by exists path.
      + do 5 left. right. by exists path.
      + do 4 left. right. by exists path.
      + do 3 left. right. by exists path.
      + do 2 left. right. by exists path.
      + left. right. by exists path.
      + right. by exists path. }
  split_and!.
  - done.
  - intros a (path & <- & _)%Hmem. apply first_segment_no_dot.
  - apply first_segment_dotless.
Qed.

Lemma table_step_world (columns : list (string * string))
    (vs : list validator) (data : list Row) (proc : Proc Handle) (w : World) :
  (table_step columns vs data proc w).2 = w.
Proof.
  unfold table_step, try_except, bind, of_outcome, ret.
  destruct (info proc) as [i|e]; [by destruct (forallb _ vs)|].
  by destruct (caught e).
Qed.

Lemma table_loop_world (columns : list (string * string))
    (vs : list validator) (procs : list (Proc Handle)) (data : list Row)
    (w : World) :
  (for_acc procs data (table_step columns vs) w).2 = w.
Proof.
  revert data. induction procs as [|proc procs IH]; intros data; [done|].
  cbn [for_acc]. unfold bind.
  pose proof (table_step_world columns vs data proc w) as Hstep.
  destruct (table_step columns vs data proc w) as [[d|e] w']; simpl in Hstep;
    subst w'; [apply IH|done].
Qed.

(** [get_process_table] only reads: whatever it returns or raises, it
    leaves the system as it found it; in particular it sends no signal. *)
Theorem table_leaves_the_system_alone
    (columns : option (list (string * string)))
    (regex_filter : option (list (string * Re.Pattern)))
    (equal_filter not_equal_filter above_filter under_filter
       : option (list (string * Value)))
    (between_filter : option (list (string * (Value * Value))))
    (w : World) :
  (get_process_table columns regex_filter equal_filter not_equal_filter
     above_filter under_filter between_filter w).2 = w.
Proof.
  unfold get_process_table, bind at 1, read.
  destruct (psutil_process_iter _ w) as [procs|e]; [|done].
  unfold bind.
  match goal with
  | |- context [for_acc procs [] ?step w] =>
      pose proof (table_loop_world (default default_columns columns)
                    (validators regex_filter equal_filter not_equal_filter
                       above_filter under_filter between_filter)
                    procs [] w) as Hloop;
      destruct (for_acc procs [] step w) as [[d|e] w']
  end; simpl in Hloop; by subst w'.
Qed.

Lemma filter_all (A : Type) (l : list A) : List.filter (λ _, true) l = l.
Proof. induction l as [|x l IH]; [done|]. simpl. by rewrite IH. Qed.

(** Without a filter entry (each filter is [None] or an empty [dict]) the
    table has one row for every process whose [info] could be read, in the
    order of the enumeration. *)
Theorem no_filter_keeps_every_readable_process
    (columns : option (list (string * string)))
    (regex_filter : option (list (string * Re.Pattern)))
    (equal_filter not_equal_filter above_filter under_filter
       : option (list (string * Value)))
    (between_filter : option (list (string * (Value * Value))))
    (w : World) (procs : list (Proc Handle)) :
  psutil_process_iter
    (attributes_to_fetch (default default_columns columns) regex_filter
       equal_filter not_equal_filter above_filter under_filter between_filter)
    w = Ret procs →
  (∀ proc e, proc ∈ procs → info proc = Raise e → caught e = true) →
  items regex_filter = [] ∧ items equal_filter = []
  ∧ items not_equal_filter = [] ∧ items above_filter = []
  ∧ items under_filter = [] ∧ items between_filter = [] →
  get_process_table columns regex_filter equal_filter not_equal_filter
    above_filter under_filter between_filter w
  = (Ret {| records :=
              make_row (default default_columns columns) <$> snapshots procs |},
     w).
Proof.
  intros Hiter Hfail (H1 & H2 & H3 & H4 & H5 & H6).
  rewrite (TableFacts.get_process_table_spec _ _ _ _ _ _ _ w procs Hiter Hfail).
  unfold table_rows, validators. rewrite H1, H2, H3, H4, H5, H6. simpl.
  unfold passes. simpl. by rewrite filter_all.
Qed.

Lemma table_loop_fails (columns : list (string * string))
    (vs : list validator) (l1 l2 : list (Proc Handle)) (p : Proc Handle)
    (data : list Row) (w : World) (e : exn) :
  (∀ q e', q ∈ l1 → info q = Raise e' → caught e' = true) →
  info p = Raise e → caught e = false →
  for_acc (l1 ++ p :: l2) data (table_step columns vs) w = (Raise e, w).
Proof.
  intros Hl1 Hp He. revert data.
  induction l1 as [|q l1 IH]; intros data.
  - cbn [app for_acc]. apply bind_Raise. unfold table_step.
    erewrite try_except_Raise
      by (apply bind_Raise; unfold of_outcome; by rewrite Hp).
    by rewrite He.
  - cbn [app for_acc].
    rewrite (bind_Ret _ _ _ _ _
      (TableFacts.table_step_spec columns vs data q w
         (λ e', Hl1 q e' (list_elem_of_here _ _)))).
    apply IH. intros q' e' Hq'. apply Hl1. by apply list_elem_of_further.
Qed.

(** The exceptions that [get_process_table] lets through: one raised by the
    enumeration of psutil, and one raised while reading the [info] of a
    process when it is neither [NoSuchProcess] nor [AccessDenied]; the rows
    collected before it are lost. *)
Theorem table_errors_reach_the_caller
    (columns : option (list (string * string)))
    (regex_filter : option (list (string * Re.Pattern)))
    (equal_filter not_equal_filter above_filter under_filter
       : option (list (string * Value)))
    (between_filter : option (list (string * (Value * Value))))
    (w : World) :
  let attrs :=
    attributes_to_fetch (default default_columns columns) regex_filter
      equal_filter not_equal_filter above_filter under_filter between_filter in
  let table :=
    get_process_table columns regex_filter equal_filter not_equal_filter
      above_filter under_filter between_filter in
  (∀ e, psutil_process_iter attrs w = Raise e → table w = (Raise e, w))
  ∧ (∀ l1 p l2 e,
       psutil_process_iter attrs w = Ret (l1 ++ p :: l2) →
       (∀ q e', q ∈ l1 → info q = Raise e' → caught e' = true) →
       info p = Raise e → caught e = false →
       table w = (Raise e, w)).
Proof.
  intros attrs table. unfold table, get_process_table. split.
  - intros e He. apply bind_Raise. unfold read. fold attrs. by rewrite He.
  - intros l1 p l2 e Hiter Hl1 Hp He.
    rewrite (bind_Ret _ _ w (l1 ++ p :: l2) w)
      by (unfold read; fold attrs; by rewrite Hiter).
    apply bind_Raise. by apply table_loop_fails.
Qed.

End Table.

(** The fixture with one column, no filter but an empty [equal_filter]: the
    six processes that run are listed, the two others are not. *)
Lemma no_filter_keeps_every_readable_process_witness :
  let os := Fixture.fx_psutil in
  let bi := Fixture.fx_builtins in
  let w := Fixture.w0 in
  let columns := Some [("Name", "name")] in
  ∃ procs,
    psutil_process_iter
      (attributes_to_fetch (default default_columns columns)
         None (Some []) None None None None) w = Ret procs
    ∧ (∀ proc e, proc ∈ procs → info proc = Raise e → caught e = true)
    ∧ (items (@None (list (string * Re.Pattern))) = []
       ∧ items (Some ([] : list (string * Value))) = []
       ∧ items (@None (list (string * Value))) = []
       ∧ items (@None (list (string * Value))) = []
       ∧ items (@None (list (string * Value))) = []
       ∧ items (@None (list (string * (Value * Value)))) = [])
    ∧ length procs = 8%nat
    ∧ length (snapshots procs) = 6%nat
    ∧ get_process_table columns None (Some []) None None None None w
      = (Ret {| records :=
                  make_row (default default_columns columns)
                  <$> snapshots procs |}, w).
Proof.
  intros os bi w columns.
  pose (attrs := attributes_to_fetch (default default_columns columns)
                   None (Some []) None None None None).
  pose (procs := match psutil_process_iter attrs w with
                 | Ret l => l
                 | Raise _ => []
                 end).
  assert (H1 : psutil_process_iter attrs w = Ret procs) by reflexivity.
  assert (H2 : ∀ proc e, proc ∈ procs → info proc = Raise e → caught e = true)
    by (intros proc e;
        apply (FixtureFacts.fx_info_caught attrs w procs _ _ H1)).
  assert (H3 : items (@None (list (string * Re.Pattern))) = []
               ∧ items (Some ([] : list (string * Value))) = []
               ∧ items (@None (list (string * Value))) = []
               ∧ items (@None (list (string * Value))) = []
               ∧ items (@None (list (string * Value))) = []
               ∧ items (@None (list (string * (Value * Value)))) = [])
    by (by repeat split).
  exists procs. do 3 (split; [assumption|]).
  split; [reflexivity|]. split; [reflexivity|].
  exact (no_filter_keeps_every_readable_process columns None (Some []) None
           None None None w procs H1 H2 H3).
Defined.

(** On the faulty system the [info] of the second process raises a
    [KeyError]: no table is returned. *)
Lemma table_errors_reach_the_caller_witness :
  let os := Faulty.fy_psutil in
  let bi := Fixture.fx_builtins in
  let w : list Z := [] in
  let p1 := {| handle := 1;
               info := Ret [("pid", VInt 1); ("name", VStr "alpha")] |} in
  let p2 := {| handle := 2; info := Raise (KeyError "info") |} in
  let p3 := {| handle := 3;
               info := Ret [("pid", VInt 3); ("name", VStr "beta")] |} in
  psutil_process_iter
    (attributes_to_fetch default_columns None None None None None None) w
  = Ret ([p1] ++ p2 :: [p3])
  ∧ (∀ q e', q ∈ [p1] → info q = Raise e' → caught e' = true)
  ∧ caught (KeyError "info") = false
  ∧ get_process_table None None None None None None None w
    = (Raise (KeyError "info"), w).
Proof.
  intros os bi w p1 p2 p3.
  assert (H1 : psutil_process_iter
                 (attributes_to_fetch (default default_columns None)
                    None None None None None None) w
               = Ret ([p1] ++ p2 :: [p3])) by reflexivity.
  assert (H2 : ∀ q e', q ∈ [p1] → info q = Raise e' → caught e' = true).
  { intros q e' Hq. apply elem_of_cons in Hq as [->|Hq];
      [discriminate|by apply elem_of_nil in Hq]. }
  assert (H3 : caught (KeyError "info") = false) by reflexivity.
  split; [exact H1|]. do 2 (split; [assumption|]).
  exact (proj2 (table_errors_reach_the_caller None None None None None None
                  None w)
           [p1] p2 [p3] (KeyError "info") H1 H2 eq_refl H3).
Defined.

End TableExtras.
